(** * Star Cineplex ticket booking: a model of [movie_ticket_booking_complete.c]

    The program starts one POSIX thread per user.  Every thread picks a
    show at random, takes a slot of a counting semaphore (three slots),
    locks the mutex of its show, books a ticket when one is left, unlocks
    and gives the slot back.  The main thread creates the threads, joins
    them and prints the final report.

    The model has three layers:
    - machine integers and the C library's [atoi];
    - the sequential start of [main] (argument checks, [sem_init],
      [initialize_shows]) as a function that returns the events it caused;
    - the threads as an interleaving transition system: one atomic step per
      synchronisation call or shared-memory access of the source.  What a
      thread prints between two such points goes with the step before: the
      decrement and the success line that follows it under the mutex are
      one step, and so are the test that finds no ticket and the sold-out
      line.

    [sem_wait], [sem_post], [pthread_mutex_lock] and [pthread_mutex_unlock]
    are taken to do what POSIX says they do on valid objects; the program
    does not look at what they return.  Delays ([usleep]) do not show in
    the model: any interleaving is allowed. *)

From Stdlib Require Import ZArith Lia Bool Ascii String.
From stdpp Require Import base tactics option list.

Local Open Scope Z_scope.

(** ** Machine integers *)

(** A C [int] is a 32-bit two's complement number: a [Z] wrapped into
    [INT_MIN .. INT_MAX]. *)
Definition INT_MAX : Z := 2147483647.
Definition INT_MIN : Z := -2147483648.

Definition int_wrap (z : Z) : Z := (z + 2147483648) mod 4294967296 - 2147483648.

Definition int_add (a b : Z) : Z := int_wrap (a + b).
Definition int_sub (a b : Z) : Z := int_wrap (a - b).

Definition in_int (z : Z) : Prop := INT_MIN <= z <= INT_MAX.

(** [long] is 64 bits wide on the platforms that have POSIX threads. *)
Definition LONG_MAX : Z := 9223372036854775807.
Definition LONG_MIN : Z := -9223372036854775808.

(** [EXIT_FAILURE] is 1 in the C library of the platforms that have POSIX
    threads. *)
Definition EXIT_FAILURE : Z := 1.

(** ** The C library's [atoi]

    [atoi] is not part of the program's source; it is modelled as the C
    library defines it, [(int) strtol (nptr, NULL, 10)]: white space is
    skipped, one sign is read, then decimal digits for as long as there are
    any; [strtol] saturates at the bounds of [long] and the conversion to
    [int] keeps the low 32 bits. *)

Definition isspace (c : ascii) : bool :=
  let n := nat_of_ascii c in
  (n =? 32)%nat || ((9 <=? n)%nat && (n <=? 13)%nat).

Definition isdigit (c : ascii) : bool :=
  let n := nat_of_ascii c in (48 <=? n)%nat && (n <=? 57)%nat.

Definition digit_value (c : ascii) : Z := Z.of_nat (nat_of_ascii c) - 48.

Fixpoint skip_spaces (s : string) : string :=
  match s with
  | String c rest => if isspace c then skip_spaces rest else s
  | EmptyString => s
  end.

(** The sign, and what follows it. *)
Definition read_sign (s : string) : bool * string :=
  match s with
  | String c rest =>
      if Ascii.eqb c "-"%char then (true, rest)
      else if Ascii.eqb c "+"%char then (false, rest)
      else (false, s)
  | EmptyString => (false, s)
  end.

(** The value of the longest prefix of digits, [acc] being the value read
    so far. *)
Fixpoint read_digits (acc : Z) (s : string) : Z :=
  match s with
  | String c rest =>
      if isdigit c then read_digits (acc * 10 + digit_value c) rest else acc
  | EmptyString => acc
  end.

Definition strtol10 (s : string) : Z :=
  let '(negative, digits) := read_sign (skip_spaces s) in
  let magnitude := read_digits 0 digits in
  if negative then Z.max LONG_MIN (- magnitude) else Z.min LONG_MAX magnitude.

Definition atoi (s : string) : Z := int_wrap (strtol10 s).

(** The number that a string of digits denotes. *)
Fixpoint decimal_value (s : string) : Z :=
  match s with
  | String c rest => digit_value c * 10 ^ Z.of_nat (String.length rest) + decimal_value rest
  | EmptyString => 0
  end.

(** What [atoi] reads digits from: the string after white space and sign. *)
Definition after_sign (s : string) : string := snd (read_sign (skip_spaces s)).

(** A string of digits only. *)
Fixpoint all_digits (s : string) : bool :=
  match s with
  | String c rest => isdigit c && all_digits rest
  | EmptyString => true
  end.

(** A string without any digit. *)
Fixpoint no_digit (s : string) : bool :=
  match s with
  | String c rest => negb (isdigit c) && no_digit rest
  | EmptyString => true
  end.

(** The string does not start with a digit. *)
Definition starts_with_digit (s : string) : bool :=
  match s with
  | String c _ => isdigit c
  | EmptyString => false
  end.

(** ** Data structures *)

(** [Show]: the mutex is the identifier of the thread that holds it, if
    any. *)
Record Show : Type := mkShow {
  show_id : Z;
  available_tickets : Z;
  initial_tickets : Z;
  mutex : option nat
}.

(** The three globals that [main] fills from the command line. *)
Record config : Type := mkConfig {
  total_users : Z;
  total_tickets_per_show : Z;
  total_shows : Z
}.

(** What the program does that can be seen from outside: the calls on
    synchronisation objects and the lines it prints.  Traces list the
    events in the order in which they happen. *)
Inductive event : Type :=
| EvSemInit (limit : Z)            (* sem_init succeeded *)
| EvMutexInit (i : nat)            (* pthread_mutex_init (&shows[i].mutex) succeeded *)
| EvMutexDestroy (i : nat)         (* pthread_mutex_destroy (&shows[i].mutex) *)
| EvFreeShows                      (* free (shows) *)
| EvSemDestroy                     (* sem_destroy (&global_semaphore) *)
| EvFreeThreads                    (* free (threads) *)
| EvSpawnError (i : nat)           (* "ERROR: ..." for user i + 1 in the creation loop *)
| EvCreated (i : nat)              (* "User i+1 thread created successfully" *)
| EvGotSlot (t : nat)              (* sem_wait returned: "Got booking slot!" *)
| EvBooked (t k : nat)             (* "BOOKING SUCCESSFUL" of thread t for shows[k] *)
| EvSoldOut (t k : nat)            (* "SOLD OUT!" of thread t for shows[k] *)
| EvSlotReleased (t : nat)         (* sem_post returned: "Booking slot released" *)
| EvJoin (i : nat) (spawned : bool) (* pthread_join (threads[i], NULL) was called *)
| EvReport (initial remaining booked : Z). (* the TOTAL line of the final report *)

(** ** The environment of the start-up

    Allocation and initialisation calls can fail; which ones do is decided
    by the environment. *)
Record environment : Type := mkEnv {
  sem_init_ok : bool;
  malloc_shows_ok : bool;
  mutex_init_ok : nat -> bool;
  malloc_threads_ok : bool
}.

(** A sequential piece of the program either goes on with a value or leaves
    the process through [exit]; both come with the events caused. *)
Inductive outcome (A : Type) : Type :=
| Continue (a : A) (tr : list event)
| Exit (code : Z) (tr : list event).
Arguments Continue {A} a tr.
Arguments Exit {A} code tr.

(** ** [initialize_shows] *)

(** The record that the loop body writes into [shows[i]]. *)
Definition fresh_show (tickets_per_show : Z) (i : nat) : Show :=
  mkShow (int_add (Z.of_nat i) 1) tickets_per_show tickets_per_show None.

(** The loop [for (i = ...; i < num_shows; i++)] with [todo] rounds left,
    [built] being [shows[0 .. i-1]]. *)
Fixpoint initialize_shows_loop (env : environment) (tickets_per_show : Z)
    (i todo : nat) (built : list Show) (tr : list event) : outcome (list Show) :=
  match todo with
  | O => Continue built tr
  | S todo' =>
      if mutex_init_ok env i then
        initialize_shows_loop env tickets_per_show (S i) todo'
          (built ++ [fresh_show tickets_per_show i]) (tr ++ [EvMutexInit i])
      else
        Exit EXIT_FAILURE (tr ++ map EvMutexDestroy (seq 0 i) ++ [EvFreeShows])
  end.

Definition initialize_shows (env : environment) (num_shows tickets_per_show : Z)
    : outcome (list Show) :=
  if malloc_shows_ok env then
    initialize_shows_loop env tickets_per_show 0 (Z.to_nat num_shows) [] []
  else Exit EXIT_FAILURE [].

(** [cleanup_resources], called with [shows != NULL]. *)
Definition cleanup_resources (num_shows : Z) : list event :=
  map EvMutexDestroy (seq 0 (Z.to_nat num_shows)) ++ [EvFreeShows; EvSemDestroy].

(** ** The threads *)

(** Where a user thread is in [book_ticket]: the next thing it does. *)
Inductive pc : Type :=
| AtSelect     (* rand () % num_shows *)
| AtSemWait    (* sem_wait (user_data->semaphore) *)
| AtLock       (* pthread_mutex_lock (&shows[selected_show_index].mutex) *)
| AtCheck      (* if (shows[selected_show_index].available_tickets > 0) *)
| AtBook       (* usleep; shows[selected_show_index].available_tickets-- *)
| AtUnlock     (* pthread_mutex_unlock *)
| AtSemPost    (* sem_post *)
| Finished.    (* free (user_data); pthread_exit (NULL) *)

Record user_thread : Type := mkUserThread {
  user_id : Z;
  selected_show_index : nat;
  wpc : pc
}.

(** Where the main thread is, from the creation loop on. *)
Inductive main_pc : Type :=
| MSpawn (i : nat)    (* creation loop, about to handle index i *)
| MJoin (i : nat)     (* join loop, about to handle index i *)
| MReport             (* display_final_status, free, cleanup_resources *)
| MExit (code : Z).   (* main has returned *)

(** The shared memory, the thread array of [main] ([None] is a slot that
    [pthread_create] never filled), the position of [main], and what has
    been printed so far. *)
Record state : Type := mkState {
  shows : list Show;
  global_semaphore : Z;
  threads : list (option user_thread);
  mpc : main_pc;
  log : list event
}.

Definition concurrent_limit : Z := 3.

(** [rand] returns a value between 0 and [RAND_MAX]. *)
Definition RAND_MAX : Z := 2147483647.

(** How an iteration of the creation loop goes: both calls succeed, the
    [malloc] of the thread's data fails, or [pthread_create] fails. *)
Inductive spawn_result : Type := SpawnOk | AllocFails | CreateFails.

(** One step of the system: the main thread moves (the environment says
    how a spawn goes), or user thread [t] moves ([rnd] is what [rand]
    returns, should the thread call it). *)
Inductive action : Type :=
| ActMain (r : spawn_result)
| ActWorker (t : nat) (rnd : Z).

(** [display_final_status]: the three totals, accumulated in [int]s. *)
Definition display_final_status (shs : list Show) : Z * Z * Z :=
  fold_left
    (fun (totals : Z * Z * Z) (sh : Show) =>
       let '(total_initial, total_remaining, total_booked) := totals in
       let booked := int_sub (initial_tickets sh) (available_tickets sh) in
       (int_add total_initial (initial_tickets sh),
        int_add total_remaining (available_tickets sh),
        int_add total_booked booked))
    shs (0, 0, 0).

Definition set_available (sh : Show) (a : Z) : Show :=
  mkShow (show_id sh) a (initial_tickets sh) (mutex sh).

Definition set_mutex (sh : Show) (m : option nat) : Show :=
  mkShow (show_id sh) (available_tickets sh) (initial_tickets sh) m.

Definition set_pc (w : user_thread) (p : pc) : user_thread :=
  mkUserThread (user_id w) (selected_show_index w) p.

(** One step of user thread [t], whose record is [w]. [None]: the thread is
    blocked (semaphore at zero, mutex taken) or has terminated. An index
    outside [shows] also gives [None]; the invariants below show that no
    thread ever has one. *)
Definition book_ticket_step (cfg : config) (t : nat) (rnd : Z) (w : user_thread)
    (st : state) : option state :=
  let k := selected_show_index w in
  let move (w' : user_thread) := <[t := Some w']> (threads st) in
  match wpc w with
  | AtSelect =>
      if (0 <=? rnd) && (rnd <=? RAND_MAX) then
        let w' := mkUserThread (user_id w) (Z.to_nat (Z.rem rnd (total_shows cfg))) AtSemWait in
        Some (mkState (shows st) (global_semaphore st) (move w') (mpc st) (log st))
      else None
  | AtSemWait =>
      if 0 <? global_semaphore st then
        Some (mkState (shows st) (global_semaphore st - 1) (move (set_pc w AtLock))
                (mpc st) (log st ++ [EvGotSlot t]))
      else None
  | AtLock =>
      match shows st !! k with
      | Some sh =>
          match mutex sh with
          | None =>
              Some (mkState (<[k := set_mutex sh (Some t)]> (shows st))
                      (global_semaphore st) (move (set_pc w AtCheck)) (mpc st) (log st))
          | Some _ => None
          end
      | None => None
      end
  | AtCheck =>
      match shows st !! k with
      | Some sh =>
          if 0 <? available_tickets sh then
            Some (mkState (shows st) (global_semaphore st) (move (set_pc w AtBook))
                    (mpc st) (log st))
          else
            Some (mkState (shows st) (global_semaphore st) (move (set_pc w AtUnlock))
                    (mpc st) (log st ++ [EvSoldOut t k]))
      | None => None
      end
  | AtBook =>
      match shows st !! k with
      | Some sh =>
          Some (mkState (<[k := set_available sh (int_sub (available_tickets sh) 1)]> (shows st))
                  (global_semaphore st) (move (set_pc w AtUnlock)) (mpc st)
                  (log st ++ [EvBooked t k]))
      | None => None
      end
  | AtUnlock =>
      match shows st !! k with
      | Some sh =>
          Some (mkState (<[k := set_mutex sh None]> (shows st))
                  (global_semaphore st) (move (set_pc w AtSemPost)) (mpc st) (log st))
      | None => None
      end
  | AtSemPost =>
      Some (mkState (shows st) (global_semaphore st + 1) (move (set_pc w Finished))
              (mpc st) (log st ++ [EvSlotReleased t]))
  | Finished => None
  end.

(** One step of the main thread.  In the join loop [pthread_join] is called
    on [threads[i]] for every [i]: on a slot that was filled it returns once
    that thread has terminated; on a slot that was never filled the handle
    is indeterminate, what the call does is not defined by POSIX, and the
    model lets it return at once. *)
Definition main_step (cfg : config) (r : spawn_result) (st : state) : option state :=
  match mpc st with
  | MSpawn i =>
      if Z.of_nat i <? total_users cfg then
        match r with
        | SpawnOk =>
            let w := mkUserThread (int_add (Z.of_nat i) 1) 0 AtSelect in
            Some (mkState (shows st) (global_semaphore st) (<[i := Some w]> (threads st))
                    (MSpawn (S i)) (log st ++ [EvCreated i]))
        | AllocFails | CreateFails =>
            Some (mkState (shows st) (global_semaphore st) (threads st)
                    (MSpawn (S i)) (log st ++ [EvSpawnError i]))
        end
      else Some (mkState (shows st) (global_semaphore st) (threads st) (MJoin 0) (log st))
  | MJoin i =>
      if Z.of_nat i <? total_users cfg then
        match threads st !! i with
        | Some (Some w) =>
            match wpc w with
            | Finished =>
                Some (mkState (shows st) (global_semaphore st) (threads st)
                        (MJoin (S i)) (log st ++ [EvJoin i true]))
            | _ => None
            end
        | _ =>
            Some (mkState (shows st) (global_semaphore st) (threads st)
                    (MJoin (S i)) (log st ++ [EvJoin i false]))
        end
      else Some (mkState (shows st) (global_semaphore st) (threads st) MReport (log st))
  | MReport =>
      let '(total_initial, total_remaining, total_booked) :=
        display_final_status (shows st) in
      Some (mkState (shows st) (global_semaphore st) (threads st) (MExit 0)
              (log st ++ [EvReport total_initial total_remaining total_booked; EvFreeThreads]
                      ++ cleanup_resources (total_shows cfg)))
  | MExit _ => None
  end.

Definition step_fn (cfg : config) (a : action) (st : state) : option state :=
  match a with
  | ActMain r => main_step cfg r st
  | ActWorker t rnd =>
      match threads st !! t with
      | Some (Some w) => book_ticket_step cfg t rnd w st
      | _ => None
      end
  end.

(** The state in which the creation loop starts. *)
Definition init_shows (cfg : config) : list Show :=
  map (fresh_show (total_tickets_per_show cfg)) (seq 0 (Z.to_nat (total_shows cfg))).

Definition init_state (cfg : config) : state :=
  mkState (init_shows cfg) concurrent_limit
    (replicate (Z.to_nat (total_users cfg)) None) (MSpawn 0) [].

(** The three values that [main] reads from the command line. [argv]
    includes the program's name. *)
Definition parse_arguments (argv : list string) : config :=
  mkConfig (atoi (nth 1 argv EmptyString))
           (atoi (nth 2 argv EmptyString))
           (atoi (nth 3 argv EmptyString)).

(** [main] up to the creation loop. *)
Definition main_startup (env : environment) (argv : list string) : outcome (config * state) :=
  if negb (Z.of_nat (length argv) =? 4) then Exit EXIT_FAILURE []
  else
    let cfg := parse_arguments argv in
    if (total_users cfg <=? 0) || (total_tickets_per_show cfg <=? 0) || (total_shows cfg <=? 0)
    then Exit EXIT_FAILURE []
    else if negb (sem_init_ok env) then Exit EXIT_FAILURE []
    else
      match initialize_shows env (total_shows cfg) (total_tickets_per_show cfg) with
      | Exit code tr => Exit code (EvSemInit concurrent_limit :: tr)
      | Continue shs tr =>
          if malloc_threads_ok env then
            Continue
              (cfg, mkState shs concurrent_limit
                      (replicate (Z.to_nat (total_users cfg)) None) (MSpawn 0) [])
              (EvSemInit concurrent_limit :: tr)
          else
            Exit EXIT_FAILURE
              (EvSemInit concurrent_limit :: tr ++ cleanup_resources (total_shows cfg))
      end.

(** The first index from [i] on, among [todo] of them, at which
    [pthread_mutex_init] fails. *)
Fixpoint first_mutex_failure (env : environment) (i todo : nat) : option nat :=
  match todo with
  | O => None
  | S todo' =>
      if mutex_init_ok env i then first_mutex_failure env (S i) todo' else Some i
  end.

(** Events of the user threads and of their creation. *)
Definition is_thread_event (e : event) : bool :=
  match e with
  | EvCreated _ | EvGotSlot _ | EvBooked _ _ | EvSoldOut _ _ | EvSlotReleased _ => true
  | _ => false
  end.

(** Environments for the examples: everything succeeds; everything succeeds
    but the initialisation of the mutex of [shows[2]]. *)
Definition friendly_env : environment := mkEnv true true (fun _ => true) true.
Definition third_mutex_fails_env : environment :=
  mkEnv true true (fun i => negb (Nat.eqb i 2)) true.

(** The states that a run can reach from the start of the creation loop. *)
Inductive reachable (cfg : config) : state -> Prop :=
| reachable_init : reachable cfg (init_state cfg)
| reachable_step (st st' : state) (a : action) :
    reachable cfg st -> step_fn cfg a st = Some st' -> reachable cfg st'.

(** Running a schedule. A step that cannot be taken (the thread chosen is
    blocked, has terminated or does not exist) leaves the state as it is. *)
Fixpoint execute (cfg : config) (schedule : list action) (st : state) : state :=
  match schedule with
  | [] => st
  | a :: rest =>
      match step_fn cfg a st with
      | Some st' => execute cfg rest st'
      | None => execute cfg rest st
      end
  end.

(** The schedule that lets every user run to its end before the next one is
    created, user [i] drawing [choice i] from [rand]; then the main thread
    joins, reports and returns. *)
Definition sequential_schedule (n : nat) (choice : nat -> Z) : list action :=
  flat_map (fun i => ActMain SpawnOk :: repeat (ActWorker i (choice i)) 7) (seq 0 n)
  ++ repeat (ActMain SpawnOk) (n + 3).

(** [n] steps lead from one state to another. *)
Inductive steps (cfg : config) : nat -> state -> state -> Prop :=
| steps_refl (st : state) : steps cfg 0 st st
| steps_next (n : nat) (st st1 st' : state) (a : action) :
    step_fn cfg a st = Some st1 -> steps cfg n st1 st' -> steps cfg (S n) st st'.

(** What [main] returns: the exit code of a run that went through. *)
Definition exit_code (st : state) : option Z :=
  match mpc st with
  | MExit code => Some code
  | _ => None
  end.

(** The configurations that pass the validation in [main]. *)
Definition valid_config (cfg : config) : Prop :=
  0 < total_users cfg <= INT_MAX /\
  0 < total_tickets_per_show cfg <= INT_MAX /\
  0 < total_shows cfg <= INT_MAX.

(** ** Counting *)

Definition b2z (b : bool) : Z := if b then 1 else 0.

Fixpoint sumZ {A : Type} (f : A -> Z) (l : list A) : Z :=
  match l with
  | [] => 0
  | x :: rest => f x + sumZ f rest
  end.

Definition count {A : Type} (P : A -> bool) (l : list A) : Z :=
  sumZ (fun x => b2z (P x)) l.

(** Predicates on the position of a user thread. *)
Definition holds_permit (p : pc) : bool :=
  match p with
  | AtLock | AtCheck | AtBook | AtUnlock | AtSemPost => true
  | _ => false
  end.

Definition in_critical_section (p : pc) : bool :=
  match p with
  | AtCheck | AtBook | AtUnlock => true
  | _ => false
  end.

Definition has_outcome (p : pc) : bool :=
  match p with
  | AtUnlock | AtSemPost | Finished => true
  | _ => false
  end.

Definition past_sem_wait (p : pc) : bool :=
  match p with
  | AtSelect | AtSemWait => false
  | _ => true
  end.

Definition is_finished (p : pc) : bool :=
  match p with
  | Finished => true
  | _ => false
  end.

(** A slot of the thread array holds a thread whose position satisfies [P]. *)
Definition slot_at (P : pc -> bool) (o : option user_thread) : bool :=
  match o with
  | Some w => P (wpc w)
  | None => false
  end.

(** ... and that thread has selected [shows[k]]. *)
Definition slot_on (k : nat) (P : pc -> bool) (o : option user_thread) : bool :=
  match o with
  | Some w => Nat.eqb (selected_show_index w) k && P (wpc w)
  | None => false
  end.

Definition is_spawned (o : option user_thread) : bool :=
  match o with
  | Some _ => true
  | None => false
  end.

(** Predicates on events. *)
Definition is_booked (e : event) : bool :=
  match e with EvBooked _ _ => true | _ => false end.

Definition is_sold_out (e : event) : bool :=
  match e with EvSoldOut _ _ => true | _ => false end.

Definition is_booked_on (k : nat) (e : event) : bool :=
  match e with EvBooked _ k' => Nat.eqb k' k | _ => false end.

Definition is_sold_out_on (k : nat) (e : event) : bool :=
  match e with EvSoldOut _ k' => Nat.eqb k' k | _ => false end.

Definition is_booked_by (t : nat) (e : event) : bool :=
  match e with EvBooked t' _ => Nat.eqb t' t | _ => false end.

Definition is_sold_out_by (t : nat) (e : event) : bool :=
  match e with EvSoldOut t' _ => Nat.eqb t' t | _ => false end.

Definition is_got_slot (t : nat) (e : event) : bool :=
  match e with EvGotSlot t' => Nat.eqb t' t | _ => false end.

Definition is_slot_released (t : nat) (e : event) : bool :=
  match e with EvSlotReleased t' => Nat.eqb t' t | _ => false end.

Definition is_spawn_error (e : event) : bool :=
  match e with EvSpawnError _ => true | _ => false end.

Definition is_join_of (i : nat) (e : event) : bool :=
  match e with EvJoin i' _ => Nat.eqb i' i | _ => false end.

(** The figures the claims speak about. *)
Definition booked_outcomes (st : state) : Z := count is_booked (log st).
Definition sold_out_outcomes (st : state) : Z := count is_sold_out (log st).
Definition error_outcomes (st : state) : Z := count is_spawn_error (log st).
Definition permit_holders (st : state) : Z := count (slot_at holds_permit) (threads st).
Definition created_users (st : state) : Z := count is_spawned (threads st).
Definition tickets_sold (shs : list Show) : Z :=
  sumZ (fun sh => initial_tickets sh - available_tickets sh) shs.
(** How many threads selected [shows[k]]. *)
Definition selected_by (k : nat) (st : state) : Z :=
  count (slot_on k past_sem_wait) (threads st).

(** The booked figure of the final report, if it has been printed. *)
Fixpoint reported_booked (l : list event) : option Z :=
  match l with
  | [] => None
  | EvReport _ _ booked :: _ => Some booked
  | _ :: rest => reported_booked rest
  end.

(** ** Scenarios *)

(** One show with one ticket and five users. *)
Definition one_show_config : config := mkConfig 5 1 1.

(** Three shows with two tickets each and a hundred users. *)
Definition three_shows_config : config := mkConfig 100 2 3.

(** Running a configuration with the sequential schedule. *)
Definition run_sequential (cfg : config) (choice : nat -> Z) : state :=
  execute cfg (sequential_schedule (Z.to_nat (total_users cfg)) choice) (init_state cfg).

(** All five users are created first; each selects its show and asks for a
    slot, which the first three get; then user 1 locks the show. *)
Definition contended_schedule : list action :=
  repeat (ActMain SpawnOk) 5
  ++ flat_map (fun i => [ActWorker i 0; ActWorker i 0]) (seq 0 5)
  ++ [ActWorker 0 0].

Definition one_show_contended : state :=
  execute one_show_config contended_schedule (init_state one_show_config).

(** Two users, one ticket, one show; [pthread_create] fails for the first
    user. *)
Definition failed_spawn_config : config := mkConfig 2 1 1.

Definition failed_spawn_schedule : list action :=
  [ActMain CreateFails; ActMain SpawnOk]
  ++ repeat (ActWorker 1 0) 7 ++ repeat (ActMain SpawnOk) 5.

Definition failed_spawn_final : state :=
  execute failed_spawn_config failed_spawn_schedule (init_state failed_spawn_config).

(** Command lines for the examples. *)
Definition one_show_argv : list string :=
  ["movie_booking"; "5"; "1"; "1"]%string.
Definition trailing_text_argv : list string :=
  ["movie_booking"; "5x"; "1"; "1"]%string.
Definition four_shows_argv : list string :=
  ["movie_booking"; "10"; "5"; "4"]%string.

(** ** A measure for termination *)

(** How many steps a thread has left at most. *)
Definition pc_weight (p : pc) : Z :=
  match p with
  | AtSelect => 7
  | AtSemWait => 6
  | AtLock => 5
  | AtCheck => 4
  | AtBook => 3
  | AtUnlock => 2
  | AtSemPost => 1
  | Finished => 0
  end.

Definition slot_weight (o : option user_thread) : Z :=
  match o with
  | Some w => pc_weight (wpc w)
  | None => 0
  end.

Definition main_weight (cfg : config) (p : main_pc) : Z :=
  let n := total_users cfg in
  match p with
  | MSpawn i => 8 * Z.max 0 (n - Z.of_nat i) + n + 3
  | MJoin i => Z.max 0 (n - Z.of_nat i) + 2
  | MReport => 1
  | MExit _ => 0
  end.

(** A bound on the number of steps that are left. *)
Definition measure (cfg : config) (st : state) : Z :=
  main_weight cfg (mpc st) + sumZ slot_weight (threads st).

(** From [st] the program runs to the end of [main]: as long as [main] has
    not returned some thread can take a step, the end of [main] can be
    reached, and no sequence of steps is longer than the measure. *)
Definition runs_to_exit (cfg : config) (st : state) : Prop :=
  (exit_code st = None -> exists a st', step_fn cfg a st = Some st') /\
  (exists n st', steps cfg n st st' /\ exit_code st' = Some 0) /\
  (forall n st', steps cfg n st st' -> Z.of_nat n <= measure cfg st).

(** ** Invariants of the reachable states *)

(** The array lengths are those of the configuration, and every thread's
    selected index is inside [shows]. *)
Definition inv_shape (cfg : config) (st : state) : Prop :=
  length (shows st) = Z.to_nat (total_shows cfg) /\
  length (threads st) = Z.to_nat (total_users cfg) /\
  forall t w, threads st !! t = Some (Some w) ->
    (selected_show_index w < Z.to_nat (total_shows cfg))%nat.

(** The counter of every show is between zero and its initial value. *)
Definition inv_range (cfg : config) (st : state) : Prop :=
  forall k sh, shows st !! k = Some sh ->
    0 <= available_tickets sh <= initial_tickets sh /\
    initial_tickets sh = total_tickets_per_show cfg.

(** A thread between [pthread_mutex_lock] and [pthread_mutex_unlock] holds
    the mutex of its show; if it is about to decrement, a ticket is left. *)
Definition inv_mutex (st : state) : Prop :=
  forall t w, threads st !! t = Some (Some w) ->
    in_critical_section (wpc w) = true ->
    exists sh, shows st !! selected_show_index w = Some sh /\
      mutex sh = Some t /\
      (wpc w = AtBook -> 0 < available_tickets sh).

(** The semaphore's value and the threads between [sem_wait] and [sem_post]
    add up to the limit. *)
Definition inv_semaphore (st : state) : Prop :=
  0 <= global_semaphore st /\
  global_semaphore st + permit_holders st = concurrent_limit.

(** The main thread: slots from the creation index on are not yet filled;
    the threads that were joined have terminated; [main] returns 0. *)
Definition inv_main (cfg : config) (st : state) : Prop :=
  match mpc st with
  | MSpawn i =>
      forall j, (i <= j < Z.to_nat (total_users cfg))%nat -> threads st !! j = Some None
  | MJoin i =>
      forall j w, (j < i)%nat -> threads st !! j = Some (Some w) -> wpc w = Finished
  | MReport =>
      forall j w, threads st !! j = Some (Some w) -> wpc w = Finished
  | MExit code =>
      code = 0 /\ forall j w, threads st !! j = Some (Some w) -> wpc w = Finished
  end.

(** Tickets sold and what the log says: per show, the tickets gone are the
    bookings logged for it, and once a sold-out line was printed for a show
    its counter is zero. *)
Definition inv_sales (st : state) : Prop :=
  tickets_sold (shows st) = booked_outcomes st /\
  (forall k sh, shows st !! k = Some sh ->
     initial_tickets sh - available_tickets sh = count (is_booked_on k) (log st)) /\
  (forall k sh, shows st !! k = Some sh ->
     0 < count (is_sold_out_on k) (log st) -> available_tickets sh = 0).

(** Outcomes and threads: every booked or sold-out line in the log belongs
    to a thread that is past its critical section. *)
Definition inv_outcomes (st : state) : Prop :=
  booked_outcomes st + sold_out_outcomes st = count (slot_at has_outcome) (threads st) /\
  forall k, count (is_booked_on k) (log st) + count (is_sold_out_on k) (log st)
            = count (slot_on k has_outcome) (threads st).

(** The record in slot [t] of the thread array, if there is one. *)
Definition slot_of (ths : list (option user_thread)) (t : nat) : option user_thread :=
  match ths !! t with
  | Some o => o
  | None => None
  end.

(** What the log says about one thread: it has a "got slot" line exactly
    when it is past [sem_wait], a "slot released" line exactly when it has
    terminated, and one outcome line exactly when it is past its critical
    section. None of these lines is ever printed twice. *)
Definition inv_thread_log (st : state) : Prop :=
  forall t,
    count (is_got_slot t) (log st) = b2z (slot_at past_sem_wait (slot_of (threads st) t)) /\
    count (is_slot_released t) (log st) = b2z (slot_at is_finished (slot_of (threads st) t)) /\
    count (is_booked_by t) (log st) + count (is_sold_out_by t) (log st)
      = b2z (slot_at has_outcome (slot_of (threads st) t)).

(** A mutex that is taken is held by a thread inside its critical section
    on that show. *)
Definition inv_owner (st : state) : Prop :=
  forall k sh t, shows st !! k = Some sh -> mutex sh = Some t ->
    exists w, threads st !! t = Some (Some w) /\
      selected_show_index w = k /\ in_critical_section (wpc w) = true.

(** The join loop calls [pthread_join] once on every index it has passed,
    and it passes every index below [total_users]. *)
Definition inv_joined (cfg : config) (st : state) : Prop :=
  match mpc st with
  | MSpawn _ => forall j, count (is_join_of j) (log st) = 0
  | MJoin i =>
      Z.of_nat i <= total_users cfg /\
      forall j, count (is_join_of j) (log st) = b2z (j <? i)%nat
  | MReport | MExit _ =>
      forall j, count (is_join_of j) (log st) = b2z (Z.of_nat j <? total_users cfg)
  end.

(** The final report: nothing is reported before [main] is done, and the
    booked figure then is the number of bookings in the log. *)
Definition inv_report (st : state) : Prop :=
  match mpc st with
  | MExit _ => reported_booked (log st) = Some (booked_outcomes st)
  | _ => reported_booked (log st) = None
  end.

(** All of the above. *)
Record invariant (cfg : config) (st : state) : Prop := mkInvariant {
  invariant_shape : inv_shape cfg st;
  invariant_range : inv_range cfg st;
  invariant_mutex : inv_mutex st;
  invariant_owner : inv_owner st;
  invariant_main : inv_main cfg st;
  invariant_semaphore : inv_semaphore st;
  invariant_sales : inv_sales st;
  invariant_outcomes : inv_outcomes st;
  invariant_thread_log : inv_thread_log st;
  invariant_joined : inv_joined cfg st;
  invariant_report : inv_report st
}.

(** ** Further invariants: identifiers, creation, locks, teardown *)

Definition is_locked (sh : Show) : bool :=
  match mutex sh with Some _ => true | None => false end.

(** How many mutexes are taken. *)
Definition locked_shows (st : state) : Z := count is_locked (shows st).

Definition is_created (e : event) : bool :=
  match e with EvCreated _ => true | _ => false end.

Definition is_destroy_of (k : nat) (e : event) : bool :=
  match e with EvMutexDestroy k' => Nat.eqb k' k | _ => false end.

Definition is_free_shows (e : event) : bool :=
  match e with EvFreeShows => true | _ => false end.

Definition is_sem_destroy (e : event) : bool :=
  match e with EvSemDestroy => true | _ => false end.

Definition is_free_threads (e : event) : bool :=
  match e with EvFreeThreads => true | _ => false end.

(** Show [k] carries the identifier [k + 1] and the user thread in slot [t]
    the identifier [t + 1]. *)
Definition inv_ids (st : state) : Prop :=
  (forall k sh, shows st !! k = Some sh -> show_id sh = Z.of_nat k + 1) /\
  (forall t w, threads st !! t = Some (Some w) -> user_id w = Z.of_nat t + 1).

(** Every index that the creation loop has passed gave one thread or one
    error line, and the threads in the array are those that were created. *)
Definition inv_spawn (cfg : config) (st : state) : Prop :=
  count is_created (log st) = created_users st /\
  match mpc st with
  | MSpawn i =>
      Z.of_nat i <= total_users cfg /\
      count is_created (log st) + error_outcomes st = Z.of_nat i
  | _ => count is_created (log st) + error_outcomes st = total_users cfg
  end.

(** The mutexes that are taken are as many as the threads inside their
    critical sections. *)
Definition inv_locked (st : state) : Prop :=
  locked_shows st = count (slot_at in_critical_section) (threads st).

(** Nothing is destroyed or freed before the end of [main]; there every
    mutex is destroyed once, and so is the semaphore, and the two arrays
    are freed once. *)
Definition inv_teardown (cfg : config) (st : state) : Prop :=
  match mpc st with
  | MExit _ =>
      (forall k, count (is_destroy_of k) (log st)
                 = b2z (Z.of_nat k <? total_shows cfg)) /\
      count is_free_shows (log st) = 1 /\
      count is_sem_destroy (log st) = 1 /\
      count is_free_threads (log st) = 1
  | _ =>
      (forall k, count (is_destroy_of k) (log st) = 0) /\
      count is_free_shows (log st) = 0 /\
      count is_sem_destroy (log st) = 0 /\
      count is_free_threads (log st) = 0
  end.

Record more_invariant (cfg : config) (st : state) : Prop := mkMoreInvariant {
  more_ids : inv_ids st;
  more_spawn : inv_spawn cfg st;
  more_locked : inv_locked st;
  more_teardown : inv_teardown cfg st
}.

(** A string of white space only. *)
Fixpoint all_spaces (s : string) : bool :=
  match s with
  | String c rest => isspace c && all_spaces rest
  | EmptyString => true
  end.

(** Further scenarios: the array of thread handles cannot be allocated;
    the state after user 1 has booked in the contended scenario. *)
Definition no_thread_array_env : environment := mkEnv true true (fun _ => true) false.

Definition one_show_after_booking : state :=
  execute one_show_config [ActWorker 0 0; ActWorker 0 0] one_show_contended.

Definition minus_five_argv : list string :=
  ["movie_booking"; " -5x"; "1"; "1"]%string.

(** ** Lemmas on integers and counting *)

Lemma int_wrap_id (z : Z) : in_int z -> int_wrap z = z.
Proof.
  unfold in_int, INT_MIN, INT_MAX, int_wrap. intros Hz.
  rewrite Z.mod_small by lia. lia.
Qed.

Lemma int_wrap_range (z : Z) : in_int (int_wrap z).
Proof.
  unfold in_int, INT_MIN, INT_MAX, int_wrap.
  pose proof (Z.mod_pos_bound (z + 2147483648) 4294967296). lia.
Qed.

Lemma sumZ_app {A : Type} (f : A -> Z) (l1 l2 : list A) :
  sumZ f (l1 ++ l2) = sumZ f l1 + sumZ f l2.
Proof. induction l1 as [|x l1 IH]; simpl; lia. Qed.

Lemma sumZ_insert {A : Type} (f : A -> Z) (l : list A) (i : nat) (x y : A) :
  l !! i = Some x -> sumZ f (<[i := y]> l) = sumZ f l - f x + f y.
Proof.
  revert i. induction l as [|z l IH]; intros [|i] Hi; simplify_eq/=; try lia.
  rewrite (IH i) by done. lia.
Qed.

Lemma count_app {A : Type} (P : A -> bool) (l1 l2 : list A) :
  count P (l1 ++ l2) = count P l1 + count P l2.
Proof. apply sumZ_app. Qed.

Lemma count_insert {A : Type} (P : A -> bool) (l : list A) (i : nat) (x y : A) :
  l !! i = Some x -> count P (<[i := y]> l) = count P l - b2z (P x) + b2z (P y).
Proof. intros Hi. unfold count. by rewrite (sumZ_insert _ _ _ x). Qed.

Lemma count_bounds {A : Type} (P : A -> bool) (l : list A) :
  0 <= count P l <= Z.of_nat (length l).
Proof.
  unfold count. induction l as [|x l IH]; simpl; [lia|].
  destruct (P x); simpl; lia.
Qed.

Lemma count_replicate_false {A : Type} (P : A -> bool) (n : nat) (x : A) :
  P x = false -> count P (replicate n x) = 0.
Proof.
  intros Hx. unfold count. induction n as [|n IH]; simpl; [done|].
  rewrite Hx, IH. done.
Qed.

Lemma count_ext_in {A : Type} (P Q : A -> bool) (l : list A) :
  (forall i x, l !! i = Some x -> P x = Q x) -> count P l = count Q l.
Proof.
  unfold count. induction l as [|x l IH]; intros HPQ; simpl; [done|].
  rewrite (HPQ 0%nat x eq_refl), IH; [done|].
  intros i y Hy. apply (HPQ (S i) y Hy).
Qed.

Lemma count_pos_elem {A : Type} (P : A -> bool) (l : list A) :
  0 < count P l -> exists i x, l !! i = Some x /\ P x = true.
Proof.
  unfold count. induction l as [|x l IH]; simpl; [lia|].
  destruct (P x) eqn:HP; intros Hc.
  - by exists 0%nat, x.
  - destruct IH as (i & y & Hy & HPy); [simpl in Hc; lia|]. by exists (S i), y.
Qed.



(** Case analysis on a step: one goal per line of [main_step] and
    [book_ticket_step] that returns a state. *)
Ltac step_split H :=
  match type of H with
  | step_fn _ ?a _ = Some _ =>
      unfold step_fn in H; destruct a as [?r|?t ?rnd];
      [ unfold main_step in H | unfold book_ticket_step in H ]
  end.

Ltac step_cases H := repeat case_match; simplify_eq/=.

Ltac step_inv H :=
  match type of H with
  | step_fn _ ?a _ = Some _ =>
      unfold step_fn in H; destruct a as [?r|?t ?rnd];
      [ unfold main_step in H | unfold book_ticket_step in H ];
      repeat case_match; simplify_eq/=
  end.

Lemma count_nil {A : Type} (P : A -> bool) : count P [] = 0.
Proof. done. Qed.

Lemma count_cons {A : Type} (P : A -> bool) (x : A) (l : list A) :
  count P (x :: l) = b2z (P x) + count P l.
Proof. done. Qed.

Lemma count_cleanup (P : event -> bool) (n : Z) :
  (forall i, P (EvMutexDestroy i) = false) ->
  P EvFreeShows = false -> P EvSemDestroy = false ->
  count P (cleanup_resources n) = 0.
Proof.
  intros Hd Hf Hs. unfold cleanup_resources.
  rewrite count_app, !count_cons, count_nil, Hf, Hs. simpl.
  generalize 0%nat as b. induction (Z.to_nat n) as [|m IH]; intros b; simpl.
  - done.
  - rewrite count_cons, Hd. simpl. specialize (IH (S b)). lia.
Qed.

Global Arguments count : simpl never.

(** Rewriting the counts over a log that grew. *)
Ltac count_log :=
  rewrite ?count_app, ?count_cons, ?count_nil, ?count_cleanup by done; simpl.

Lemma lookup_slot_insert (ths : list (option user_thread)) (t t' : nat) (w w' : user_thread) :
  <[t := Some w]> ths !! t' = Some (Some w') ->
  (t' = t /\ w' = w) \/ (t' <> t /\ ths !! t' = Some (Some w')).
Proof.
  intros [(-> & ? & _)|[? ?]]%list_lookup_insert_Some; [left|right]; by simplify_eq.
Qed.

Lemma slot_of_insert_lookup (ths : list (option user_thread)) (t : nat) (w w' : user_thread) :
  ths !! t = Some (Some w) -> <[t := Some w']> ths !! t = Some (Some w').
Proof. intros Ht. apply list_lookup_insert_eq. by eapply lookup_lt_Some. Qed.

Lemma lookup_show_insert (shs : list Show) (k k' : nat) (sh sh' : Show) :
  <[k := sh]> shs !! k' = Some sh' ->
  (k' = k /\ sh' = sh) \/ (k' <> k /\ shs !! k' = Some sh').
Proof.
  intros [(-> & ? & _)|[? ?]]%list_lookup_insert_Some; [left|right]; by simplify_eq.
Qed.

Lemma lookup_init_shows (cfg : config) (k : nat) (sh : Show) :
  init_shows cfg !! k = Some sh -> sh = fresh_show (total_tickets_per_show cfg) k.
Proof.
  unfold init_shows. generalize (Z.to_nat (total_shows cfg)) as n.
  assert (forall n b k, map (fresh_show (total_tickets_per_show cfg)) (seq b n) !! k = Some sh ->
            sh = fresh_show (total_tickets_per_show cfg) (b + k)) as Hgen.
  { induction n as [|n IH]; intros b [|j] Hk; simplify_eq/=.
    - by rewrite Nat.add_0_r.
    - rewrite <- Nat.add_succ_comm. by apply IH. }
  intros n Hk. by apply (Hgen n 0%nat k).
Qed.

Lemma length_init_shows (cfg : config) :
  length (init_shows cfg) = Z.to_nat (total_shows cfg).
Proof. unfold init_shows. by rewrite length_map, length_seq. Qed.

Lemma reported_booked_app_None (l1 l2 : list event) :
  reported_booked l1 = None -> reported_booked (l1 ++ l2) = reported_booked l2.
Proof.
  induction l1 as [|e l1 IH]; simpl; [done|]. destruct e; try done; apply IH.
Qed.

(** The accumulation of [display_final_status] does not wrap as long as the
    tickets sold fit an [int]. *)
Lemma display_final_status_booked (shs : list Show) :
  (forall k sh, shs !! k = Some sh ->
     0 <= available_tickets sh <= initial_tickets sh /\ initial_tickets sh <= INT_MAX) ->
  tickets_sold shs <= INT_MAX ->
  snd (display_final_status shs) = tickets_sold shs.
Proof.
  unfold display_final_status, tickets_sold.
  assert (forall a b c,
    (forall k sh, shs !! k = Some sh ->
       0 <= available_tickets sh <= initial_tickets sh /\ initial_tickets sh <= INT_MAX) ->
    0 <= c -> c + sumZ (fun sh => initial_tickets sh - available_tickets sh) shs <= INT_MAX ->
    snd (fold_left
      (fun (totals : Z * Z * Z) (sh : Show) =>
         let '(total_initial, total_remaining, total_booked) := totals in
         let booked := int_sub (initial_tickets sh) (available_tickets sh) in
         (int_add total_initial (initial_tickets sh),
          int_add total_remaining (available_tickets sh),
          int_add total_booked booked)) shs (a, b, c))
    = c + sumZ (fun sh => initial_tickets sh - available_tickets sh) shs) as Hgen.
  { induction shs as [|sh shs IH]; intros a b c Hr Hc Hsum; simpl in *; [lia|].
    destruct (Hr 0%nat sh eq_refl) as [Hsh Hmax].
    assert (0 <= sumZ (fun sh => initial_tickets sh - available_tickets sh) shs) as Hnn.
    { clear -Hr. induction shs as [|x l IHl]; simpl; [lia|].
      destruct (Hr 1%nat x eq_refl) as [? _].
      assert (0 <= sumZ (λ sh0 : Show, initial_tickets sh0 - available_tickets sh0) l); [|lia].
      apply IHl. intros [|k] y Hy; [by apply (Hr 0%nat)|by apply (Hr (S (S k)))]. }
    unfold INT_MAX in *.
    assert (int_sub (initial_tickets sh) (available_tickets sh)
            = initial_tickets sh - available_tickets sh) as ->.
    { apply int_wrap_id. unfold in_int, INT_MIN, INT_MAX. lia. }
    assert (int_add c (initial_tickets sh - available_tickets sh)
            = c + (initial_tickets sh - available_tickets sh)) as ->.
    { apply int_wrap_id. unfold in_int, INT_MIN, INT_MAX. lia. }
    rewrite IH; [lia| |lia|lia].
    intros k y Hy. by apply (Hr (S k)). }
  intros Hr Hsum. rewrite Hgen; [lia|done|lia|lia].
Qed.

Section Simulation.

Variable cfg : config.
Hypothesis cfg_ok : valid_config cfg.

Lemma rem_in_range (rnd : Z) :
  0 <= rnd -> (Z.to_nat (Z.rem rnd (total_shows cfg)) < Z.to_nat (total_shows cfg))%nat.
Proof.
  intros Hr. destruct cfg_ok as (_ & _ & Hs).
  rewrite Z.rem_mod_nonneg by lia.
  pose proof (Z.mod_pos_bound rnd (total_shows cfg)). lia.
Qed.

Lemma inv_shape_init : inv_shape cfg (init_state cfg).
Proof.
  split_and!; simpl.
  - apply length_init_shows.
  - apply length_replicate.
  - intros t w Hw. apply lookup_replicate in Hw as [? _]. done.
Qed.

Lemma inv_shape_step (st st' : state) (a : action) :
  inv_shape cfg st -> step_fn cfg a st = Some st' -> inv_shape cfg st'.
Proof.
  intros (Hs & Ht & Hsel) Hstep. destruct cfg_ok as (_ & _ & Hshows).
  step_inv Hstep; (split_and!; simpl; rewrite ?length_insert; try done).
  all: intros t' w' [[-> ->]|[_ Hw']]%lookup_slot_insert; simpl; eauto; try lia.
  apply rem_in_range. lia.
Qed.

Lemma inv_range_init : inv_range cfg (init_state cfg).
Proof.
  intros k sh ->%lookup_init_shows. simpl. destruct cfg_ok as (_ & ? & _). lia.
Qed.

Lemma inv_mutex_init : inv_mutex (init_state cfg).
Proof. intros t w Hw. apply lookup_replicate in Hw as [? _]. done. Qed.

Lemma inv_range_step (st st' : state) (a : action) :
  inv_range cfg st -> inv_mutex st -> step_fn cfg a st = Some st' -> inv_range cfg st'.
Proof.
  intros Hr Hm Hstep. destruct cfg_ok as (_ & Hticket & _).
  step_inv Hstep; try done.
  all: intros k' sh' [[-> ->]|[_ Hk']]%lookup_show_insert; simpl; eauto.
  match goal with
  | Hw : threads st !! _ = Some (Some ?w), Hpc : wpc ?w = AtBook |- _ =>
      destruct (Hm _ _ Hw) as (sh & Hsh & _ & Hpos); [by rewrite Hpc|];
      specialize (Hpos Hpc)
  end.
  simplify_eq.
  match goal with Hsh' : shows st !! _ = Some _ |- _ => destruct (Hr _ _ Hsh') as [? ?] end.
  unfold int_sub. rewrite int_wrap_id; [lia|]. unfold in_int, INT_MIN, INT_MAX in *. lia.
Qed.

Lemma inv_mutex_step (st st' : state) (a : action) :
  inv_mutex st -> step_fn cfg a st = Some st' -> inv_mutex st'.
Proof.
  intros Hm Hstep.
  step_inv Hstep; try done.
  all: intros t' w' Hw' Hcs; simpl in *.
  all: try (apply lookup_slot_insert in Hw' as [[-> ->]|[Hne Hw']]; simpl in *; try done).
  (* the thread that moved *)
  all: try match goal with
    | Hw : threads _ !! ?t = Some (Some ?w), Hpc : wpc ?w = _
      |- context [mutex _ = Some ?t] =>
        first
          [ destruct (Hm _ _ Hw) as (sh0 & Hsh0 & Hmx0 & Hpos0); [by rewrite Hpc|];
            simplify_eq
          | idtac ];
        first
          [ eexists; split_and!; [by eauto|by eauto|by (intros; lia || done)]
          | eexists; split_and!;
            [ apply list_lookup_insert_eq; by eapply lookup_lt_Some
            | by simpl | by simpl ] ]
    end.
  (* another thread, while the moving one changed its show *)
  all: destruct (Hm _ _ Hw' Hcs) as (sh' & Hsh' & Hmx' & Hpos').
  all: try (by exists sh').
  all: match goal with
    | Hw : threads _ !! ?t = Some (Some ?w), Hpc : wpc ?w = ?p
      |- context [<[selected_show_index ?w := _]> _] =>
        destruct (decide (selected_show_index w' = selected_show_index w)) as [Heq|Hneq];
        [ exfalso; rewrite Heq in Hsh'; simplify_eq;
          try (destruct (Hm _ _ Hw) as (sh0 & Hsh0 & Hmx0 & _); [by rewrite Hpc|]);
          simplify_eq; congruence
        | exists sh'; rewrite list_lookup_insert_ne by done; done ]
    end.
Qed.

Lemma inv_main_init : inv_main cfg (init_state cfg).
Proof. intros j Hj. simpl. apply lookup_replicate_2. lia. Qed.

Lemma inv_main_step (st st' : state) (a : action) :
  inv_shape cfg st -> inv_main cfg st -> step_fn cfg a st = Some st' -> inv_main cfg st'.
Proof.
  intros (_ & Hlen & _) Hmain Hstep. unfold inv_main in *.
  step_split Hstep.
  - (* the main thread moves *)
    step_cases Hstep.
    all: simpl in *.
    + intros j Hj. rewrite list_lookup_insert_ne by lia. apply Hmain. lia.
    + intros j Hj. apply Hmain. lia.
    + intros j Hj. apply Hmain. lia.
    + intros j w Hj. lia.
    + intros j w' Hj Hw'. destruct (decide (j = i)) as [->|]; [by simplify_eq|].
      apply (Hmain j); [lia|done].
    + intros j w' Hj Hw'. destruct (decide (j = i)) as [->|]; [by simplify_eq|].
      apply (Hmain j); [lia|done].
    + intros j w' Hj Hw'. destruct (decide (j = i)) as [->|]; [by simplify_eq|].
      apply (Hmain j); [lia|done].
    + intros j w Hw. apply (Hmain j); [|done].
      apply lookup_lt_Some in Hw. lia.
    + split; [done|]. apply Hmain.
  - (* a user thread moves *)
    step_cases Hstep.
    all: destruct (mpc st) as [i|i| |code] eqn:Hpc; simpl.
    all: try destruct Hmain as [Hcode Hmain]; try split; try done.
    all: try (intros j Hj; rewrite list_lookup_insert_ne; [by apply Hmain|];
              intros ->; rewrite Hmain in * by done; done).
    all: try (intros j w' Hj [[-> ->]|[_ Hw']]%lookup_slot_insert; [|by eauto];
              match goal with
              | Hw : threads _ !! _ = Some (Some ?w), Hw2 : wpc ?w = _ |- _ =>
                  rewrite (Hmain _ _ Hj Hw) in Hw2; done
              end).
    all: try (intros j w' [[-> ->]|[_ Hw']]%lookup_slot_insert; [|by eauto];
              match goal with
              | Hw : threads _ !! _ = Some (Some ?w), Hw2 : wpc ?w = _ |- _ =>
                  rewrite (Hmain _ _ Hw) in Hw2; done
              end).
Qed.

Lemma inv_owner_init : inv_owner (init_state cfg).
Proof. intros k sh t ->%lookup_init_shows. done. Qed.

Lemma inv_owner_step (st st' : state) (a : action) :
  inv_mutex st -> inv_main cfg st -> inv_owner st ->
  step_fn cfg a st = Some st' -> inv_owner st'.
Proof.
  intros Hm Hmain Ho Hstep.
  step_inv Hstep.
  all: intros k' sh' t'; simpl.
  all: try (intros [[-> ->]|[Hne Hk']]%lookup_show_insert);
       try match goal with |- _ !! _ = _ -> _ => intros Hk' end; simpl; intros Hmx.
  all: try done.
  all: simplify_eq.
  (* the show that the moving thread has just locked *)
  all: try (match goal with
    | Hw : threads _ !! ?t = Some (Some ?w) |- context [<[?t := Some ?w']> _ !! ?t] =>
        exists w'; split_and!; [by eapply slot_of_insert_lookup|done|done]
    end).
  (* otherwise the owner is who it was *)
  all: match goal with
    | Hs : shows _ !! ?k = Some ?sh, Hx : mutex ?sh = Some ?t |- _ =>
        destruct (Ho _ _ _ Hs Hx) as (w2 & Hw2 & Hsel2 & Hcs2)
    end.
  all: try (by exists w2).
  (* the main thread filled a slot *)
  all: try match goal with
    | Hpc : mpc _ = MSpawn ?i |- context [<[?i := _]> _] =>
        exists w2; split_and!; [|done|done];
        rewrite list_lookup_insert_ne; [done|];
        intros ->; unfold inv_main in Hmain; rewrite Hpc in Hmain;
        rewrite Hmain in Hw2 by lia; done
    end.
  (* a thread moved *)
  all: match goal with
    | Hw : threads _ !! ?t = Some (Some ?w), Hpc : wpc ?w = _
      |- context [<[?t := Some ?w']> _] =>
        destruct (decide (t = t')) as [<-|Hnt];
        [ simplify_eq;
          first
            [ by (rewrite Hpc in *; simpl in *)
            | exists w'; split_and!; [by eapply slot_of_insert_lookup|done|done] ]
        | exists w2; rewrite list_lookup_insert_ne by done; done ]
    end.
Qed.

Lemma count_slot_move (P : option user_thread -> bool) (st : state) (t : nat) (w w' : user_thread) :
  threads st !! t = Some (Some w) ->
  count P (<[t := Some w']> (threads st)) = count P (threads st) - b2z (P (Some w)) + b2z (P (Some w')).
Proof. apply count_insert. Qed.

Lemma inv_semaphore_init : inv_semaphore (init_state cfg).
Proof.
  split; [done|]. unfold permit_holders. simpl.
  by rewrite count_replicate_false.
Qed.

Lemma inv_semaphore_step (st st' : state) (a : action) :
  inv_main cfg st -> inv_semaphore st -> step_fn cfg a st = Some st' -> inv_semaphore st'.
Proof.
  intros Hmain [Hpos Hsum] Hstep. unfold inv_semaphore, permit_holders in *.
  step_inv Hstep; try done.
  all: try match goal with
    | Hw : threads _ !! _ = Some (Some ?w), Hpc : wpc ?w = _ |- _ =>
        rewrite (count_slot_move _ _ _ _ _ Hw); simpl; rewrite Hpc; simpl; lia
    end.
  unfold inv_main in Hmain.
  match goal with Hpc : mpc st = MSpawn ?i |- _ =>
    rewrite Hpc in Hmain; rewrite (count_insert _ _ _ None) by (apply Hmain; lia)
  end.
  simpl. lia.
Qed.

Lemma tickets_sold_init_shows (tickets : Z) (b n : nat) :
  tickets_sold (map (fresh_show tickets) (seq b n)) = 0.
Proof.
  unfold tickets_sold. revert b. induction n as [|n IH]; intros b; simpl; [done|].
  rewrite IH. lia.
Qed.

Lemma inv_sales_init : inv_sales (init_state cfg).
Proof.
  split_and!; simpl.
  - unfold init_shows. by rewrite tickets_sold_init_shows.
  - intros k sh ->%lookup_init_shows. simpl. rewrite count_nil. lia.
  - intros k sh _. rewrite count_nil. lia.
Qed.

Lemma inv_sales_step (st st' : state) (a : action) :
  inv_range cfg st -> inv_mutex st -> inv_sales st ->
  step_fn cfg a st = Some st' -> inv_sales st'.
Proof.
  intros Hr Hm (Hsold & Hon & Hout) Hstep.
  destruct cfg_ok as (_ & Htickets & _).
  unfold inv_sales, booked_outcomes, tickets_sold in *.
  step_inv Hstep.
  all: try match goal with
    | Hw : threads _ !! _ = Some (Some ?w), Hpc : wpc ?w = AtBook |- _ =>
        destruct (Hm _ _ Hw) as (sh0 & Hsh0 & _ & Hpos0); [by rewrite Hpc|];
        specialize (Hpos0 Hpc)
    end.
  all: simplify_eq.
  all: try match goal with
    | Hs : shows _ !! _ = Some _ |- _ => pose proof (Hr _ _ Hs) as [Hrange Hinit]
    end.
  all: split_and!; simpl.
  (* the total *)
  all: try (try match goal with
              | Hs : shows _ !! ?k = Some ?s |- context [<[?k := ?y]> _] =>
                  rewrite (sumZ_insert _ _ _ s y Hs)
              end; count_log;
            unfold int_sub; rewrite ?int_wrap_id by (unfold in_int, INT_MIN, INT_MAX in *; lia);
            simpl; lia).
  (* per show *)
  all: intros k' sh'.
  all: try (intros [[-> ->]|[Hne Hk']]%lookup_show_insert);
       try match goal with |- _ !! _ = _ -> _ => intros Hk' end; simpl.
  all: count_log.
  all: repeat match goal with
    | |- context [Nat.eqb ?x ?y] => destruct (Nat.eqb_spec x y); simplify_eq; simpl
    end.
  all: intros.
  all: try (unfold int_sub; rewrite ?int_wrap_id by (unfold in_int, INT_MIN, INT_MAX in *; lia)).
  all: try match goal with
    | Hs : shows _ !! ?k = Some ?sh |- context [count (is_booked_on ?k)] =>
        pose proof (Hon _ _ Hs)
    | Hs : shows _ !! ?k = Some ?sh |- context [count (is_sold_out_on ?k)] =>
        pose proof (Hout _ _ Hs)
    end.
  all: try lia.
  all: try match goal with
    | Hs : shows _ !! ?k = Some _, Hc : 0 < count (is_sold_out_on ?k) _ + _ |- _ =>
        assert (0 < count (is_sold_out_on k) (log st)) as Hc' by lia;
        pose proof (Hout _ _ Hs Hc'); lia
    end.
  all: try match goal with
    | Hlt : (0 <? _) = false |- _ => apply Z.ltb_ge in Hlt; lia
    end.
  all: eapply Hout; [eassumption|lia].
Qed.

Lemma inv_outcomes_init : inv_outcomes (init_state cfg).
Proof.
  split; [|intros k]; unfold booked_outcomes, sold_out_outcomes; simpl;
    rewrite !count_nil, count_replicate_false; done.
Qed.

Lemma inv_outcomes_step (st st' : state) (a : action) :
  inv_main cfg st -> inv_outcomes st -> step_fn cfg a st = Some st' -> inv_outcomes st'.
Proof.
  intros Hmain [Hall Hon] Hstep.
  unfold inv_outcomes, booked_outcomes, sold_out_outcomes, inv_main in *.
  step_inv Hstep.
  all: split; [|intros k; specialize (Hon k)]; simpl.
  all: count_log.
  all: try match goal with
    | Hw : threads _ !! _ = Some (Some ?w), Hpc : wpc ?w = _ |- _ =>
        rewrite (count_slot_move _ _ _ _ _ Hw); simpl; rewrite Hpc; simpl
    end.
  all: try match goal with
    | Hpc : mpc _ = MSpawn ?i |- context [<[?i := _]> _] =>
        rewrite (count_insert _ _ _ None) by (apply Hmain; lia); simpl
    end.
  all: rewrite ?andb_false_r, ?andb_true_r.
  all: repeat match goal with
    | |- context [Nat.eqb ?x ?y] => destruct (Nat.eqb_spec x y); simplify_eq; simpl
    end.
  all: simpl; lia.
Qed.

Lemma slot_of_insert_eq (ths : list (option user_thread)) (t : nat) (o o' : option user_thread) :
  ths !! t = Some o -> slot_of (<[t := o']> ths) t = o'.
Proof.
  intros Ht. unfold slot_of. rewrite list_lookup_insert_eq; [done|].
  by eapply lookup_lt_Some.
Qed.

Lemma slot_of_insert_ne (ths : list (option user_thread)) (t t' : nat) (o' : option user_thread) :
  t <> t' -> slot_of (<[t := o']> ths) t' = slot_of ths t'.
Proof. intros Hne. unfold slot_of. by rewrite list_lookup_insert_ne. Qed.

Lemma inv_thread_log_init : inv_thread_log (init_state cfg).
Proof.
  intros t. simpl. rewrite !count_nil. unfold slot_of.
  destruct (replicate _ _ !! t) as [o|] eqn:Ho; [|done].
  apply lookup_replicate in Ho as [-> _]. done.
Qed.

Lemma inv_thread_log_step (st st' : state) (a : action) :
  inv_main cfg st -> inv_thread_log st -> step_fn cfg a st = Some st' -> inv_thread_log st'.
Proof.
  intros Hmain Hlog Hstep. unfold inv_thread_log, inv_main in *.
  step_inv Hstep.
  all: intros t'; specialize (Hlog t'); simpl.
  all: count_log.
  all: try match goal with
    | Hw : threads _ !! ?t = Some (Some ?w), Hpc : wpc ?w = _ |- _ =>
        destruct (decide (t = t')) as [<-|Hne];
        [ rewrite (slot_of_insert_eq _ _ _ _ Hw);
          unfold slot_of in Hlog; rewrite Hw in Hlog; simpl in *; rewrite Hpc in Hlog
        | rewrite (slot_of_insert_ne _ _ _ _ Hne) ]
    end.
  all: try match goal with
    | Hpc : mpc _ = MSpawn ?i |- context [<[?i := _]> _] =>
        destruct (decide (i = t')) as [<-|Hne];
        [ rewrite (slot_of_insert_eq _ _ None) by (apply Hmain; lia);
          unfold slot_of in Hlog; rewrite Hmain in Hlog by lia
        | rewrite (slot_of_insert_ne _ _ _ _ Hne) ]
    end.
  all: simpl in *.
  all: repeat match goal with
    | |- context [Nat.eqb ?x ?y] => destruct (Nat.eqb_spec x y); simplify_eq; simpl
    end.
  all: lia.
Qed.

Lemma inv_report_init : inv_report (init_state cfg).
Proof. done. Qed.

Lemma booked_outcomes_bound (st : state) :
  inv_shape cfg st -> inv_outcomes st -> 0 <= booked_outcomes st <= total_users cfg.
Proof.
  intros (_ & Hlen & _) [Hall _]. destruct cfg_ok as (Hu & _ & _).
  pose proof (count_bounds (slot_at has_outcome) (threads st)) as Hb.
  pose proof (count_bounds is_booked (log st)).
  pose proof (count_bounds is_sold_out (log st)).
  unfold booked_outcomes, sold_out_outcomes in *. rewrite Hlen in Hb. lia.
Qed.

Lemma inv_report_step (st st' : state) (a : action) :
  inv_shape cfg st -> inv_range cfg st -> inv_main cfg st -> inv_sales st -> inv_outcomes st ->
  inv_report st -> step_fn cfg a st = Some st' -> inv_report st'.
Proof.
  intros Hshape Hr Hmain Hsales Hout Hrep Hstep.
  pose proof (booked_outcomes_bound st Hshape Hout) as Hbound.
  destruct cfg_ok as (Hu & Ht & _).
  unfold inv_report, inv_main in *.
  step_split Hstep.
  - step_cases Hstep; simpl in *.
    all: try (rewrite reported_booked_app_None by done; done).
    all: try done.
    rewrite reported_booked_app_None by done. simpl. f_equal.
    unfold booked_outcomes. simpl. count_log.
    destruct Hsales as (Hsold & _ & _). fold (booked_outcomes st). rewrite <- Hsold.
    match goal with
    | Hd : display_final_status _ = _ |- _ => apply (f_equal snd) in Hd; simpl in Hd
    end.
    rewrite display_final_status_booked in *; [lia| |lia].
    intros k sh Hsh. destruct (Hr k sh Hsh) as [? ?]. lia.
  - step_cases Hstep; simpl in *.
    all: destruct (mpc st) eqn:Hpc; simpl in *.
    all: try (rewrite reported_booked_app_None by done; done).
    all: try done.
    all: destruct Hmain as [_ Hfin].
    all: match goal with
      | Hw : threads _ !! _ = Some (Some ?w), Hw2 : wpc ?w = _ |- _ =>
          rewrite (Hfin _ _ Hw) in Hw2; done
      end.
Qed.

Lemma inv_joined_init : inv_joined cfg (init_state cfg).
Proof. intros j. done. Qed.

Lemma inv_joined_step (st st' : state) (a : action) :
  inv_main cfg st -> inv_joined cfg st -> step_fn cfg a st = Some st' -> inv_joined cfg st'.
Proof.
  intros Hmain Hj Hstep. destruct cfg_ok as (Hu & _ & _).
  unfold inv_joined, inv_main in *.
  step_split Hstep.
  - step_cases Hstep; simpl in *.
    all: repeat match goal with
      | Hlt : (_ <? _) = true |- _ => apply Z.ltb_lt in Hlt
      | Hlt : (_ <? _) = false |- _ => apply Z.ltb_ge in Hlt
      end.
    all: try destruct Hj as [Hle Hj].
    all: try (split; [lia|]).
    all: intros j; specialize (Hj j); count_log; rewrite ?Hj.
    all: repeat match goal with
      | |- context [Nat.eqb ?x ?y] => destruct (Nat.eqb_spec x y); simplify_eq; simpl
      end.
    all: repeat match goal with
      | |- context [Nat.ltb ?x ?y] => destruct (Nat.ltb_spec x y); simpl
      | |- context [Z.ltb ?x ?y] => destruct (Z.ltb_spec x y); simpl
      end.
    all: lia.
  - step_cases Hstep; simpl in *.
    all: destruct (mpc st) eqn:Hpc; simpl in *.
    all: try destruct Hj as [Hle Hj].
    all: try (split; [lia|]).
    all: intros j; specialize (Hj j); count_log; lia.
Qed.

Lemma invariant_init : invariant cfg (init_state cfg).
Proof.
  split.
  - apply inv_shape_init.
  - apply inv_range_init.
  - apply inv_mutex_init.
  - apply inv_owner_init.
  - apply inv_main_init.
  - apply inv_semaphore_init.
  - apply inv_sales_init.
  - apply inv_outcomes_init.
  - apply inv_thread_log_init.
  - apply inv_joined_init.
  - apply inv_report_init.
Qed.

Lemma invariant_step (st st' : state) (a : action) :
  invariant cfg st -> step_fn cfg a st = Some st' -> invariant cfg st'.
Proof.
  intros [] Hstep. split.
  - by eapply inv_shape_step.
  - by eapply inv_range_step.
  - by eapply inv_mutex_step.
  - by eapply inv_owner_step.
  - by eapply inv_main_step.
  - by eapply inv_semaphore_step.
  - by eapply inv_sales_step.
  - by eapply inv_outcomes_step.
  - by eapply inv_thread_log_step.
  - by eapply inv_joined_step.
  - by eapply inv_report_step.
Qed.

Lemma reachable_invariant (st : state) : reachable cfg st -> invariant cfg st.
Proof.
  induction 1 as [|st st' a _ IH Hstep]; [apply invariant_init|by eapply invariant_step].
Qed.

Lemma execute_reachable (schedule : list action) (st : state) :
  reachable cfg st -> reachable cfg (execute cfg schedule st).
Proof.
  revert st. induction schedule as [|a rest IH]; intros st Hst; simpl; [done|].
  destruct (step_fn cfg a st) as [st1|] eqn:Hstep; apply IH; [|done].
  by eapply reachable_step.
Qed.

(** *** Termination and absence of deadlock *)

Lemma sumZ_nonneg {A : Type} (f : A -> Z) (l : list A) :
  (forall x, 0 <= f x) -> 0 <= sumZ f l.
Proof. intros Hf. induction l as [|x l IH]; simpl; [lia|]. specialize (Hf x). lia. Qed.

Lemma slot_weight_nonneg (o : option user_thread) : 0 <= slot_weight o.
Proof. destruct o as [[? ? []]|]; simpl; lia. Qed.

Lemma measure_nonneg (st : state) : 0 <= measure cfg st.
Proof.
  unfold measure. pose proof (sumZ_nonneg slot_weight (threads st) slot_weight_nonneg).
  destruct cfg_ok as (? & _ & _). destruct (mpc st); simpl; lia.
Qed.

(** Every step uses up some of the measure. *)
Lemma step_measure (st st' : state) (a : action) :
  inv_main cfg st -> step_fn cfg a st = Some st' -> measure cfg st' < measure cfg st.
Proof.
  intros Hmain Hstep. destruct cfg_ok as (Hu & _ & _).
  unfold measure, inv_main in *.
  step_inv Hstep.
  all: try match goal with
    | Hw : threads _ !! _ = Some (Some ?w), Hpc : wpc ?w = _ |- _ =>
        rewrite (sumZ_insert _ _ _ _ _ Hw); simpl; rewrite Hpc; simpl; lia
    end.
  all: try match goal with
    | Hpc : mpc _ = MSpawn ?i |- context [<[?i := _]> _] =>
        rewrite (sumZ_insert _ _ _ None) by (apply Hmain; lia)
    end.
  all: simpl.
  all: repeat match goal with
    | Hlt : (_ <? _) = true |- _ => apply Z.ltb_lt in Hlt
    | Hlt : (_ <? _) = false |- _ => apply Z.ltb_ge in Hlt
    end.
  all: lia.
Qed.

(** No run is longer than the measure of the state it starts in. *)
Lemma steps_bounded (n : nat) (st st' : state) :
  invariant cfg st -> steps cfg n st st' -> Z.of_nat n <= measure cfg st - measure cfg st'.
Proof.
  intros Hinv Hsteps. induction Hsteps as [|n st st1 st' a Hstep _ IH]; [lia|].
  pose proof (step_measure _ _ _ (invariant_main _ _ Hinv) Hstep).
  specialize (IH (invariant_step _ _ _ Hinv Hstep)). lia.
Qed.

(** A thread that is not blocked can move. *)
Lemma worker_can_move (st : state) (t : nat) (w : user_thread) :
  inv_shape cfg st -> threads st !! t = Some (Some w) ->
  match wpc w with
  | AtSelect | AtCheck | AtBook | AtUnlock | AtSemPost => True
  | AtSemWait => 0 < global_semaphore st
  | AtLock => exists sh, shows st !! selected_show_index w = Some sh /\ mutex sh = None
  | Finished => False
  end ->
  exists st', step_fn cfg (ActWorker t 0) st = Some st'.
Proof.
  intros (Hlen & _ & Hsel) Hw Hp. specialize (Hsel _ _ Hw).
  destruct (lookup_lt_is_Some_2 (shows st) (selected_show_index w)) as [sh Hsh]; [lia|].
  unfold step_fn, book_ticket_step. rewrite Hw.
  destruct (wpc w) eqn:Hpc; simpl; rewrite ?Hsh; try done; eauto.
  - apply Z.ltb_lt in Hp. rewrite Hp. eauto.
  - destruct Hp as (sh' & Hsh' & Hmx). simplify_eq. rewrite Hmx. eauto.
  - destruct (0 <? available_tickets sh); eauto.
Qed.

(** As long as a thread has not terminated, some thread can move. *)
Lemma some_worker_can_move (st : state) (t : nat) (w : user_thread) :
  invariant cfg st -> threads st !! t = Some (Some w) -> wpc w <> Finished ->
  exists t' st', step_fn cfg (ActWorker t' 0) st = Some st'.
Proof.
  intros Hinv Hw Hnf.
  pose proof (invariant_shape _ _ Hinv) as Hshape.
  assert (forall t1 w1, threads st !! t1 = Some (Some w1) -> wpc w1 = AtLock ->
            exists t' st', step_fn cfg (ActWorker t' 0) st = Some st') as Hlock.
  { intros t1 w1 Hw1 Hpc1.
    destruct Hshape as (Hlen & _ & Hsel). specialize (Hsel _ _ Hw1).
    destruct (lookup_lt_is_Some_2 (shows st) (selected_show_index w1)) as [sh Hsh]; [lia|].
    destruct (mutex sh) as [t2|] eqn:Hmx.
    - destruct (invariant_owner _ _ Hinv _ _ _ Hsh Hmx) as (w2 & Hw2 & _ & Hcs2).
      exists t2. eapply worker_can_move; [by destruct Hinv|done|].
      by destruct (wpc w2).
    - exists t1. eapply worker_can_move; [by destruct Hinv|done|].
      rewrite Hpc1. eauto. }
  destruct (wpc w) eqn:Hpc; try done.
  all: try (exists t; eapply worker_can_move; [done|done|by rewrite Hpc]).
  - (* sem_wait *)
    destruct (decide (0 < global_semaphore st)) as [Hpos|Hzero].
    + exists t. eapply worker_can_move; [done|done|by rewrite Hpc].
    + destruct (invariant_semaphore _ _ Hinv) as [Hge Hsum].
      unfold concurrent_limit, permit_holders in Hsum.
      destruct (count_pos_elem (slot_at holds_permit) (threads st)) as (t2 & o2 & Ho2 & Hp2); [lia|].
      destruct o2 as [w2|]; [|done]. simpl in Hp2.
      destruct (wpc w2) eqn:Hpc2; try done.
      all: try (exists t2; eapply worker_can_move; [done|done|by rewrite Hpc2]).
      by eapply Hlock.
  - by eapply Hlock.
Qed.

(** Absence of deadlock: until [main] has returned, a step can be taken. *)
Lemma progress (st : state) :
  invariant cfg st -> exit_code st = None -> exists a st', step_fn cfg a st = Some st'.
Proof.
  intros Hinv Hrun. unfold exit_code in Hrun.
  destruct (mpc st) as [i|i| |code] eqn:Hpc; [| | |done].
  - exists (ActMain SpawnOk). unfold step_fn, main_step. rewrite Hpc.
    destruct (Z.of_nat i <? total_users cfg); eauto.
  - destruct (Z.of_nat i <? total_users cfg) eqn:Hlt.
    + destruct (threads st !! i) as [[w|]|] eqn:Hw.
      * assert (wpc w = Finished \/ wpc w <> Finished) as [Hfin|Hnf]
          by (destruct (wpc w); auto; right; done).
        -- exists (ActMain SpawnOk). unfold step_fn, main_step.
           rewrite Hpc, Hlt, Hw, Hfin. eauto.
        -- destruct (some_worker_can_move st i w Hinv Hw Hnf) as (t' & st' & Hstep).
           eauto.
      * exists (ActMain SpawnOk). unfold step_fn, main_step. rewrite Hpc, Hlt, Hw. eauto.
      * exists (ActMain SpawnOk). unfold step_fn, main_step. rewrite Hpc, Hlt, Hw. eauto.
    + exists (ActMain SpawnOk). unfold step_fn, main_step. rewrite Hpc, Hlt. eauto.
  - exists (ActMain SpawnOk). unfold step_fn, main_step. rewrite Hpc.
    destruct (display_final_status (shows st)) as [[? ?] ?]. eauto.
Qed.

(** From every reachable state the program can run to the end of [main],
    and whichever way it runs it cannot go on for ever. *)
Lemma eventually_exits (st : state) :
  invariant cfg st -> exists n st', steps cfg n st st' /\ exit_code st' = Some 0.
Proof.
  intros Hinv.
  remember (Z.to_nat (measure cfg st)) as m eqn:Hm.
  revert st Hinv Hm. induction m as [m IH] using lt_wf_ind. intros st Hinv Hm.
  destruct (exit_code st) as [code|] eqn:Hexit.
  - exists 0%nat, st. split; [constructor|].
    unfold exit_code in *. pose proof (invariant_main _ _ Hinv) as Hmain.
    unfold inv_main in Hmain. destruct (mpc st); try done.
    destruct Hmain as [-> _]. done.
  - destruct (progress st Hinv Hexit) as (a & st1 & Hstep).
    pose proof (step_measure _ _ _ (invariant_main _ _ Hinv) Hstep) as Hlt.
    pose proof (measure_nonneg st1) as Hnn.
    destruct (IH (Z.to_nat (measure cfg st1)) ltac:(lia) st1
                (invariant_step _ _ _ Hinv Hstep) eq_refl) as (n & st' & Hsteps & Hcode).
    exists (S n), st'. split; [by econstructor|done].
Qed.

Lemma invariant_runs_to_exit (st : state) : invariant cfg st -> runs_to_exit cfg st.
Proof.
  intros Hinv. split_and!.
  - by apply progress.
  - by apply eventually_exits.
  - intros n st' Hsteps. pose proof (steps_bounded n st st' Hinv Hsteps).
    pose proof (measure_nonneg st'). lia.
Qed.

(** *** The end of the run *)

Lemma exit_all_finished (st : state) (code : Z) :
  invariant cfg st -> exit_code st = Some code ->
  code = 0 /\ forall j w, threads st !! j = Some (Some w) -> wpc w = Finished.
Proof.
  intros Hinv Hexit. pose proof (invariant_main _ _ Hinv) as Hmain.
  unfold exit_code, inv_main in *. destruct (mpc st); simplify_eq. done.
Qed.

(** When [main] has returned, the bookings logged for a show are its
    capacity or the number of threads that selected it, whichever is less. *)
Lemma booked_on_at_exit (st : state) (code : Z) (k : nat) (sh : Show) :
  invariant cfg st -> exit_code st = Some code -> shows st !! k = Some sh ->
  count (is_booked_on k) (log st)
    = Z.min (total_tickets_per_show cfg) (selected_by k st) /\
  count (is_sold_out_on k) (log st)
    = selected_by k st - Z.min (total_tickets_per_show cfg) (selected_by k st) /\
  available_tickets sh
    = total_tickets_per_show cfg - Z.min (total_tickets_per_show cfg) (selected_by k st).
Proof.
  intros Hinv Hexit Hsh.
  destruct (exit_all_finished st code Hinv Hexit) as [_ Hfin].
  destruct (invariant_range _ _ Hinv k sh Hsh) as [Hr Hi].
  destruct (invariant_sales _ _ Hinv) as (_ & Hon & Hout).
  destruct (invariant_outcomes _ _ Hinv) as [_ Hk]. specialize (Hk k).
  specialize (Hon k sh Hsh). specialize (Hout k sh Hsh).
  pose proof (count_bounds (is_sold_out_on k) (log st)) as [Hs _].
  assert (selected_by k st = count (slot_on k has_outcome) (threads st)) as Hsel.
  { unfold selected_by. apply count_ext_in. intros j [w|] Hj; [|done].
    simpl. by rewrite (Hfin j w Hj). }
  destruct (decide (0 < count (is_sold_out_on k) (log st))) as [Hpos|Hzero].
  - specialize (Hout Hpos). lia.
  - lia.
Qed.

Lemma sumZ_lookup_seq {A : Type} (f : A -> Z) (g : nat -> Z) (l : list A) (b : nat) :
  (forall k x, l !! k = Some x -> f x = g (b + k)%nat) ->
  sumZ f l = sumZ g (seq b (length l)).
Proof.
  revert b. induction l as [|y l IH]; intros b Hfg; simpl; [done|].
  rewrite (Hfg 0%nat y eq_refl), Nat.add_0_r. f_equal.
  apply IH. intros k x Hk. rewrite (Hfg (S k) x Hk). f_equal. lia.
Qed.

(** The total of the bookings at the end of the run. *)
Lemma booked_outcomes_at_exit (st : state) (code : Z) :
  invariant cfg st -> exit_code st = Some code ->
  booked_outcomes st
    = sumZ (fun k => Z.min (total_tickets_per_show cfg) (selected_by k st))
        (seq 0 (Z.to_nat (total_shows cfg))).
Proof.
  intros Hinv Hexit.
  destruct (invariant_sales _ _ Hinv) as (<- & Hon & _).
  destruct (invariant_shape _ _ Hinv) as (<- & _ & _).
  unfold tickets_sold. apply sumZ_lookup_seq. intros k sh Hsh. simpl.
  rewrite (Hon k sh Hsh).
  by destruct (booked_on_at_exit st code k sh Hinv Hexit Hsh) as (-> & _ & _).
Qed.

End Simulation.

(** ** The start-up *)

Lemma isdigit_not_space (c : ascii) : isdigit c = true -> isspace c = false.
Proof.
  unfold isdigit, isspace. generalize (nat_of_ascii c) as n. intros n Hn.
  apply andb_true_iff in Hn as [H1%Nat.leb_le H2%Nat.leb_le].
  apply orb_false_iff. split.
  - apply Nat.eqb_neq. lia.
  - apply andb_false_iff. right. apply Nat.leb_gt. lia.
Qed.

Lemma isdigit_not_sign (c : ascii) :
  isdigit c = true -> Ascii.eqb c "-"%char = false /\ Ascii.eqb c "+"%char = false.
Proof.
  intros Hc. split.
  - destruct (Ascii.eqb_spec c "-"%char) as [->|]; [by vm_compute in Hc|done].
  - destruct (Ascii.eqb_spec c "+"%char) as [->|]; [by vm_compute in Hc|done].
Qed.

Lemma read_digits_no_digit (acc : Z) (s : string) :
  starts_with_digit s = false -> read_digits acc s = acc.
Proof. destruct s as [|c s]; simpl; [done|]. by intros ->. Qed.

Lemma read_digits_append (acc : Z) (ds rest : string) :
  all_digits ds = true -> starts_with_digit rest = false ->
  read_digits acc (String.append ds rest)
    = acc * 10 ^ Z.of_nat (String.length ds) + decimal_value ds.
Proof.
  intros Hds Hrest. revert acc. induction ds as [|c ds IH]; intros acc; simpl.
  - rewrite read_digits_no_digit by done. lia.
  - simpl in Hds. apply andb_true_iff in Hds as [Hc Hds]. rewrite Hc, (IH Hds).
    rewrite Nat2Z.inj_succ, Z.pow_succ_r by lia. lia.
Qed.

Lemma atoi_after_sign_no_digit (s : string) :
  starts_with_digit (after_sign s) = false -> atoi s = 0.
Proof.
  unfold after_sign, atoi, strtol10. destruct (read_sign (skip_spaces s)) as [neg ds].
  simpl. intros Hds. rewrite read_digits_no_digit by done.
  by destruct neg.
Qed.

Lemma no_digit_starts (s : string) : no_digit s = true -> starts_with_digit s = false.
Proof. destruct s as [|c s]; simpl; [done|]. by intros [?%negb_true_iff _]%andb_true_iff. Qed.

Lemma no_digit_skip_spaces (s : string) : no_digit s = true -> no_digit (skip_spaces s) = true.
Proof.
  induction s as [|c s IH]; simpl; [done|]. intros Hs.
  destruct (isspace c); [|done]. apply IH. by apply andb_true_iff in Hs as [_ ?].
Qed.

Lemma no_digit_after_sign (s : string) : no_digit s = true -> no_digit (after_sign s) = true.
Proof.
  intros Hs%no_digit_skip_spaces. unfold after_sign, read_sign.
  destruct (skip_spaces s) as [|c r]; [done|]. simpl in Hs.
  apply andb_true_iff in Hs as [Hc Hr].
  destruct (Ascii.eqb c "-"); [done|]. destruct (Ascii.eqb c "+"); [done|].
  simpl. by rewrite Hc, Hr.
Qed.

Lemma atoi_digits_then_rest (ds rest : string) :
  ds <> EmptyString -> all_digits ds = true -> starts_with_digit rest = false ->
  0 <= decimal_value ds <= INT_MAX ->
  atoi (String.append ds rest) = decimal_value ds.
Proof.
  intros Hne Hds Hrest Hval. destruct ds as [|c ds]; [done|].
  simpl in Hds. apply andb_true_iff in Hds as [Hc Hds].
  unfold atoi, strtol10. simpl skip_spaces at 1. simpl String.append.
  simpl skip_spaces. rewrite (isdigit_not_space c Hc).
  unfold read_sign. destruct (isdigit_not_sign c Hc) as [-> ->].
  change (String c (String.append ds rest)) with (String.append (String c ds) rest).
  rewrite read_digits_append by (simpl; by rewrite ?Hc, ?Hds).
  unfold INT_MAX, LONG_MAX in *. rewrite Z.mul_0_l, Z.add_0_l.
  rewrite Z.min_r by lia. apply int_wrap_id. unfold in_int, INT_MIN, INT_MAX. lia.
Qed.

Lemma first_mutex_failure_ge (env : environment) (i todo f : nat) :
  first_mutex_failure env i todo = Some f ->
  (i <= f < i + todo)%nat /\ mutex_init_ok env f = false /\
  forall j, (i <= j < f)%nat -> mutex_init_ok env j = true.
Proof.
  revert i. induction todo as [|todo IH]; intros i Hf; simpl in Hf; [done|].
  destruct (mutex_init_ok env i) eqn:Hi.
  - destruct (IH _ Hf) as (Hr & Hfail & Hok). split; [lia|split; [done|]].
    intros j Hj. destruct (decide (j = i)) as [->|]; [done|]. apply Hok. lia.
  - simplify_eq. split; [lia|split; [done|]]. intros j Hj. lia.
Qed.

Lemma first_mutex_failure_found (env : environment) (i todo f : nat) :
  (i <= f < i + todo)%nat -> mutex_init_ok env f = false ->
  (forall j, (i <= j < f)%nat -> mutex_init_ok env j = true) ->
  first_mutex_failure env i todo = Some f.
Proof.
  revert i. induction todo as [|todo IH]; intros i Hr Hfail Hok; simpl; [lia|].
  destruct (decide (f = i)) as [->|Hne].
  - by rewrite Hfail.
  - rewrite Hok by lia. apply IH; [lia|done|]. intros j Hj. apply Hok. lia.
Qed.

Lemma first_mutex_failure_none (env : environment) (i todo : nat) :
  (forall j, mutex_init_ok env j = true) -> first_mutex_failure env i todo = None.
Proof.
  intros Hok. revert i. induction todo as [|todo IH]; intros i; simpl; [done|].
  by rewrite Hok.
Qed.

(** What the loop of [initialize_shows] comes to. *)
Lemma initialize_shows_loop_spec (env : environment) (tickets : Z)
    (i todo : nat) (built : list Show) (tr : list event) :
  initialize_shows_loop env tickets i todo built tr =
  match first_mutex_failure env i todo with
  | Some f =>
      Exit EXIT_FAILURE
        (tr ++ map EvMutexInit (seq i (f - i))
            ++ map EvMutexDestroy (seq 0 f) ++ [EvFreeShows])
  | None =>
      Continue (built ++ map (fresh_show tickets) (seq i todo))
               (tr ++ map EvMutexInit (seq i todo))
  end.
Proof.
  revert i built tr. induction todo as [|todo IH]; intros i built tr; simpl.
  - by rewrite !app_nil_r.
  - destruct (mutex_init_ok env i) eqn:Hi.
    + rewrite IH. destruct (first_mutex_failure env (S i) todo) as [f|] eqn:Hf.
      * apply first_mutex_failure_ge in Hf as (Hr & _ & _).
        replace (f - i)%nat with (S (f - S i)) by lia. simpl.
        by rewrite <- !app_assoc.
      * by rewrite <- !app_assoc.
    + by rewrite Nat.sub_diag.
Qed.

Lemma initialize_shows_spec (env : environment) (num_shows tickets : Z) :
  initialize_shows env num_shows tickets =
  if malloc_shows_ok env then
    match first_mutex_failure env 0 (Z.to_nat num_shows) with
    | Some f =>
        Exit EXIT_FAILURE
          (map EvMutexInit (seq 0 f) ++ map EvMutexDestroy (seq 0 f) ++ [EvFreeShows])
    | None =>
        Continue (map (fresh_show tickets) (seq 0 (Z.to_nat num_shows)))
                 (map EvMutexInit (seq 0 (Z.to_nat num_shows)))
    end
  else Exit EXIT_FAILURE [].
Proof.
  unfold initialize_shows. destruct (malloc_shows_ok env); [|done].
  rewrite initialize_shows_loop_spec.
  destruct (first_mutex_failure env 0 (Z.to_nat num_shows)); [|done].
  by rewrite Nat.sub_0_r.
Qed.

Lemma parse_arguments_valid (argv : list string) :
  0 < total_users (parse_arguments argv) ->
  0 < total_tickets_per_show (parse_arguments argv) ->
  0 < total_shows (parse_arguments argv) ->
  valid_config (parse_arguments argv).
Proof.
  intros Hu Ht Hs. unfold valid_config, parse_arguments in *. simpl in *.
  pose proof (int_wrap_range (strtol10 (nth 1 argv EmptyString))) as [_ ?].
  pose proof (int_wrap_range (strtol10 (nth 2 argv EmptyString))) as [_ ?].
  pose proof (int_wrap_range (strtol10 (nth 3 argv EmptyString))) as [_ ?].
  unfold atoi in *. lia.
Qed.

(** The start-up goes through exactly when nothing fails, and then hands
    over the initial state of the configuration read. *)
Lemma main_startup_continues (env : environment) (argv : list string) :
  Z.of_nat (length argv) = 4 ->
  0 < total_users (parse_arguments argv) ->
  0 < total_tickets_per_show (parse_arguments argv) ->
  0 < total_shows (parse_arguments argv) ->
  sem_init_ok env = true -> malloc_shows_ok env = true ->
  first_mutex_failure env 0 (Z.to_nat (total_shows (parse_arguments argv))) = None ->
  malloc_threads_ok env = true ->
  main_startup env argv =
    Continue (parse_arguments argv, init_state (parse_arguments argv))
      (EvSemInit concurrent_limit
         :: map EvMutexInit (seq 0 (Z.to_nat (total_shows (parse_arguments argv))))).
Proof.
  intros Hargc Hu Ht Hs Hsem Hmalloc Hmutex Hthreads. unfold main_startup.
  rewrite Hargc, Z.eqb_refl. cbn [negb]. cbv zeta.
  apply Z.leb_gt in Hu, Ht, Hs. rewrite Hu, Ht, Hs, Hsem. cbn [negb orb].
  rewrite initialize_shows_spec, Hmalloc, Hmutex, Hthreads. done.
Qed.

Lemma count_map_false {A : Type} (P : event -> bool) (f : A -> event) (l : list A) :
  (forall x, P (f x) = false) -> count P (map f l) = 0.
Proof.
  intros HP. induction l as [|x l IH]; simpl; [done|].
  by rewrite count_cons, HP, IH.
Qed.


Lemma step_log_extends (cfg : config) (st st' : state) (a : action) :
  step_fn cfg a st = Some st' -> exists l, log st' = log st ++ l.
Proof.
  intros Hstep. step_inv Hstep; eauto.
  all: exists []; by rewrite app_nil_r.
Qed.

Lemma steps_reach (cfg : config) (n : nat) (st st' : state) :
  reachable cfg st -> steps cfg n st st' -> reachable cfg st'.
Proof.
  intros Hr Hsteps. induction Hsteps as [|n st st1 st' a Hstep _ IH]; [done|].
  apply IH. by eapply reachable_step.
Qed.

Lemma steps_log_extends (cfg : config) (n : nat) (st st' : state) :
  steps cfg n st st' -> exists l, log st' = log st ++ l.
Proof.
  induction 1 as [st|n st st1 st' a Hstep _ [l2 IH]].
  - exists []. by rewrite app_nil_r.
  - destruct (step_log_extends _ _ _ _ Hstep) as [l1 Hl1].
    exists (l1 ++ l2). by rewrite IH, Hl1, app_assoc.
Qed.

Lemma count_zero {A : Type} (P : A -> bool) (l : list A) :
  (forall i x, l !! i = Some x -> P x = false) -> count P l = 0.
Proof.
  induction l as [|x l IH]; intros HP; [done|].
  rewrite count_cons, (HP 0%nat x eq_refl), IH; [done|].
  intros i y Hy. apply (HP (S i) y Hy).
Qed.

(** A thread that holds a slot keeps its place in the array; it has taken
    its slot once, has given back at most one, and has given back exactly
    one when [main] has returned, where no slot is held any more. *)
Lemma permit_released_at_exit
    (cfg : config) (n : nat) (st st' : state) (t : nat) (w : user_thread) :
  valid_config cfg -> reachable cfg st -> steps cfg n st st' ->
  threads st !! t = Some (Some w) -> holds_permit (wpc w) = true ->
  count (is_got_slot t) (log st') = 1 /\
  count (is_slot_released t) (log st') <= 1 /\
  (forall code, exit_code st' = Some code ->
     count (is_slot_released t) (log st') = 1 /\
     permit_holders st' = 0 /\ global_semaphore st' = 3).
Proof.
  intros Hcfg Hreach Hsteps Hw Hp.
  pose proof (steps_reach _ _ _ _ Hreach Hsteps) as Hreach'.
  pose proof (reachable_invariant cfg Hcfg st Hreach) as Hinv.
  pose proof (reachable_invariant cfg Hcfg st' Hreach') as Hinv'.
  destruct (invariant_thread_log _ _ Hinv t) as (Hgot & _ & _).
  destruct (invariant_thread_log _ _ Hinv' t) as (Hgot' & Hrel' & _).
  unfold slot_of in Hgot. rewrite Hw in Hgot. simpl in Hgot.
  assert (past_sem_wait (wpc w) = true) as Hpast by (by destruct (wpc w)).
  rewrite Hpast in Hgot. simpl in Hgot.
  destruct (steps_log_extends _ _ _ _ Hsteps) as [l Hl].
  pose proof (count_bounds (is_got_slot t) l) as [Hl0 _].
  assert (count (is_got_slot t) (log st') = 1) as Hone.
  { rewrite Hl, count_app, Hgot in Hgot'. rewrite Hl, count_app, Hgot.
    destruct (slot_at past_sem_wait (slot_of (threads st') t)); simpl in Hgot'; lia. }
  split; [done|]. split.
  { rewrite Hrel'. by destruct (slot_at is_finished (slot_of (threads st') t)). }
  intros code Hexit.
  destruct (exit_all_finished _ st' code Hinv' Hexit) as [_ Hfin].
  assert (permit_holders st' = 0) as Hnone.
  { apply count_zero. intros j [w'|] Hj; [|done]. simpl. by rewrite (Hfin j w' Hj). }
  destruct (invariant_semaphore _ _ Hinv') as [_ Hsum]. unfold concurrent_limit in Hsum.
  split_and!; [|done|lia].
  rewrite Hrel'. rewrite Hone in Hgot'. unfold slot_of in *.
  destruct (threads st' !! t) as [[w'|]|] eqn:Hw'; simpl in Hgot'; try done.
  simpl. by rewrite (Hfin t w' Hw').
Qed.

(** ** The claims on the booking protocol *)

(** C1. In every reachable state of the simulation, the end of the program
    included, every show has [0 <= available_tickets <= initial_tickets],
    the latter being the capacity given on the command line; this holds for
    every valid configuration, whatever the number of users. *)
Theorem C1_available_between_zero_and_capacity
    (cfg : config) (st : state) (k : nat) (sh : Show) :
  valid_config cfg -> reachable cfg st -> shows st !! k = Some sh ->
  0 <= available_tickets sh <= initial_tickets sh /\
  initial_tickets sh = total_tickets_per_show cfg.
Proof.
  intros Hcfg Hreach Hsh.
  apply (invariant_range cfg st (reachable_invariant cfg Hcfg st Hreach) k sh Hsh).
Qed.

(** C2. The critical section of a reservation attempt: a thread that is at
    the test of [available_tickets] of its show, (i) with a ticket left,
    goes on to the decrement and takes exactly one ticket: afterwards the
    show's [available_tickets] is what it was less 1, nothing else of the
    show has changed and no other show has; (ii) with none
    left, prints the sold-out line and changes no shared data; (iii) a step
    of the system changes [available_tickets] of a show only if it is that
    decrement; (iv) while a thread is inside its critical section, no step
    of another thread changes its show. *)
Theorem C2_critical_section (cfg : config) (st : state) :
  valid_config cfg -> reachable cfg st ->
  (forall t w sh rnd rnd',
     threads st !! t = Some (Some w) -> wpc w = AtCheck ->
     shows st !! selected_show_index w = Some sh ->
     0 < available_tickets sh ->
     exists st1 st2,
       step_fn cfg (ActWorker t rnd) st = Some st1 /\
       step_fn cfg (ActWorker t rnd') st1 = Some st2 /\
       shows st1 = shows st /\
       shows st2 = <[selected_show_index w :=
                       set_available sh (available_tickets sh - 1)]> (shows st) /\
       global_semaphore st2 = global_semaphore st /\
       log st2 = log st ++ [EvBooked t (selected_show_index w)] /\
       (exists sh2, shows st2 !! selected_show_index w = Some sh2 /\
          available_tickets sh2 = available_tickets sh - 1 /\
          initial_tickets sh2 = initial_tickets sh /\
          show_id sh2 = show_id sh /\ mutex sh2 = mutex sh) /\
       (forall k', k' <> selected_show_index w -> shows st2 !! k' = shows st !! k')) /\
  (forall t w sh rnd,
     threads st !! t = Some (Some w) -> wpc w = AtCheck ->
     shows st !! selected_show_index w = Some sh ->
     available_tickets sh = 0 ->
     exists st1,
       step_fn cfg (ActWorker t rnd) st = Some st1 /\
       shows st1 = shows st /\
       global_semaphore st1 = global_semaphore st /\
       threads st1 = <[t := Some (set_pc w AtUnlock)]> (threads st) /\
       log st1 = log st ++ [EvSoldOut t (selected_show_index w)]) /\
  (forall a st' k sh sh',
     step_fn cfg a st = Some st' ->
     shows st !! k = Some sh -> shows st' !! k = Some sh' ->
     available_tickets sh' <> available_tickets sh ->
     available_tickets sh' = available_tickets sh - 1 /\
     0 < available_tickets sh /\
     exists t w rnd, a = ActWorker t rnd /\ threads st !! t = Some (Some w) /\
       wpc w = AtBook /\ selected_show_index w = k) /\
  (forall t w a st',
     threads st !! t = Some (Some w) -> in_critical_section (wpc w) = true ->
     step_fn cfg a st = Some st' -> (forall rnd, a <> ActWorker t rnd) ->
     shows st' !! selected_show_index w = shows st !! selected_show_index w).
Proof.
  intros Hcfg Hreach.
  pose proof (reachable_invariant cfg Hcfg st Hreach) as Hinv.
  pose proof (invariant_range _ _ Hinv) as Hrange.
  pose proof (invariant_mutex _ _ Hinv) as Hmutex.
  assert (forall sh k, shows st !! k = Some sh -> 0 < available_tickets sh ->
            int_sub (available_tickets sh) 1 = available_tickets sh - 1) as Hdec.
  { intros sh k Hsh Hpos. destruct (Hrange k sh Hsh) as [Hr Hi].
    destruct Hcfg as (_ & Ht & _). apply int_wrap_id.
    unfold in_int, INT_MIN, INT_MAX in *. lia. }
  split_and!.
  - intros t w sh rnd rnd' Hw Hpc Hsh Hpos.
    apply Z.ltb_lt in Hpos as Hlt.
    eexists _, _. split_and!.
    + unfold step_fn, book_ticket_step. rewrite Hw, Hpc, Hsh, Hlt. done.
    + unfold step_fn, book_ticket_step. simpl.
      rewrite (slot_of_insert_lookup _ _ _ _ Hw). simpl. rewrite Hsh. done.
    + done.
    + simpl. by rewrite (Hdec sh _ Hsh Hpos).
    + done.
    + done.
    + simpl. rewrite (Hdec sh _ Hsh Hpos). eexists. split.
      * apply list_lookup_insert_eq. by eapply lookup_lt_Some.
      * done.
    + intros k' Hk'. simpl. by rewrite list_lookup_insert_ne.
  - intros t w sh rnd Hw Hpc Hsh Hzero.
    assert ((0 <? available_tickets sh) = false) as Hlt by (apply Z.ltb_ge; lia).
    eexists. split_and!.
    + unfold step_fn, book_ticket_step. rewrite Hw, Hpc, Hsh, Hlt. done.
    + done.
    + done.
    + done.
    + done.
  - intros a st' k sh sh' Hstep Hsh Hsh' Hne.
    step_inv Hstep; simplify_eq.
    all: try match goal with
      | Hx : <[_ := _]> _ !! _ = Some _ |- _ =>
          apply lookup_show_insert in Hx as [[-> ->]|[Hnk Hx]]; simplify_eq/=
      end.
    all: try done.
    lazymatch goal with
    | Hw : threads _ !! _ = Some (Some ?w0), Hpc : wpc ?w0 = AtBook |- _ =>
        destruct (Hmutex _ _ Hw) as (sh0 & Hsh0 & _ & Hpos0); [by rewrite Hpc|];
        specialize (Hpos0 Hpc)
    end.
    simplify_eq.
    split_and!; [by eapply Hdec|done|]. eauto 10.
  - intros t w a st' Hw Hcs Hstep Hother.
    destruct (Hmutex _ _ Hw Hcs) as (sh & Hsh & Hmx & _).
    step_inv Hstep; try done.
    all: match goal with
      | Hw' : threads _ !! ?t' = Some (Some ?w'), Hpc' : wpc ?w' = _,
        Hs' : shows _ !! selected_show_index ?w' = Some ?s'
        |- context [<[selected_show_index ?w' := _]> _] =>
          destruct (decide (selected_show_index w' = selected_show_index w)) as [Heq|Hneq];
          [ exfalso; rewrite Heq in Hs';
            try (destruct (Hmutex _ _ Hw') as (sh1 & Hsh1 & Hmx1 & _); [by rewrite Hpc'|];
                 rewrite Heq in Hsh1);
            simplify_eq; first [ by eapply Hother | congruence ]
          | by rewrite list_lookup_insert_ne ]
      end.
Qed.

(** C3. In every reachable state the tickets gone from the shows, summed
    over the shows, are as many as the reservation attempts that came out
    booked (an attempt counts as booked from its decrement on, which is also
    when it prints its success line); this holds show by show; and the
    booked total of the final report is that number. *)
Theorem C3_tickets_sold_are_the_bookings (cfg : config) (st : state) :
  valid_config cfg -> reachable cfg st ->
  tickets_sold (shows st) = booked_outcomes st /\
  (forall k sh, shows st !! k = Some sh ->
     initial_tickets sh - available_tickets sh = count (is_booked_on k) (log st)) /\
  booked_outcomes st + sold_out_outcomes st = count (slot_at has_outcome) (threads st) /\
  (forall code, exit_code st = Some code ->
     reported_booked (log st) = Some (booked_outcomes st)).
Proof.
  intros Hcfg Hreach.
  pose proof (reachable_invariant cfg Hcfg st Hreach) as Hinv.
  destruct (invariant_sales _ _ Hinv) as (Hsold & Hon & _).
  destruct (invariant_outcomes _ _ Hinv) as [Hall _].
  split_and!; try done.
  intros code Hexit. pose proof (invariant_report _ _ Hinv) as Hrep.
  unfold inv_report, exit_code in *. by destruct (mpc st).
Qed.

(** C6. The semaphore is initialised to 3. In every reachable state the
    threads between [sem_wait] and [sem_post] are at most 3, and the value
    of the semaphore is 3 less their number. A thread takes a slot at most
    once and gives back at most what it took; a thread at [sem_post] can
    always take that step, which adds one to the semaphore, whatever the
    outcome of its attempt; and a thread that has terminated has taken one
    slot, given back one slot, and has one outcome, booked or sold out.
    Every slot that is taken is given back: from every reachable state the
    program runs on to the end of [main], whatever the interleaving, and a
    thread that holds a slot now has, in every later state, taken exactly
    one slot and given back at most one, and when [main] has returned it
    has given back exactly one, no slot is held and the semaphore is at 3
    again. *)
Theorem C6_admission_limit (cfg : config) (st : state) :
  valid_config cfg -> reachable cfg st ->
  global_semaphore (init_state cfg) = 3 /\
  0 <= permit_holders st <= 3 /\
  global_semaphore st = 3 - permit_holders st /\
  (forall t w, threads st !! t = Some (Some w) ->
     count (is_got_slot t) (log st) = b2z (past_sem_wait (wpc w)) /\
     count (is_slot_released t) (log st) = b2z (is_finished (wpc w)) /\
     count (is_got_slot t) (log st) - count (is_slot_released t) (log st)
       = b2z (holds_permit (wpc w))) /\
  (forall t w rnd, threads st !! t = Some (Some w) -> wpc w = AtSemPost ->
     exists st', step_fn cfg (ActWorker t rnd) st = Some st' /\
       global_semaphore st' = global_semaphore st + 1 /\
       log st' = log st ++ [EvSlotReleased t]) /\
  (forall t w, threads st !! t = Some (Some w) -> wpc w = Finished ->
     count (is_got_slot t) (log st) = 1 /\
     count (is_slot_released t) (log st) = 1 /\
     count (is_booked_by t) (log st) + count (is_sold_out_by t) (log st) = 1) /\
  runs_to_exit cfg st /\
  (forall n st' t w,
     steps cfg n st st' ->
     threads st !! t = Some (Some w) -> holds_permit (wpc w) = true ->
     count (is_got_slot t) (log st') = 1 /\
     count (is_slot_released t) (log st') <= 1 /\
     (forall code, exit_code st' = Some code ->
        count (is_slot_released t) (log st') = 1 /\
        permit_holders st' = 0 /\ global_semaphore st' = 3)).
Proof.
  intros Hcfg Hreach.
  pose proof (reachable_invariant cfg Hcfg st Hreach) as Hinv.
  pose proof (invariant_runs_to_exit cfg Hcfg st Hinv) as Hruns.
  assert (forall n st' t w,
     steps cfg n st st' ->
     threads st !! t = Some (Some w) -> holds_permit (wpc w) = true ->
     count (is_got_slot t) (log st') = 1 /\
     count (is_slot_released t) (log st') <= 1 /\
     (forall code, exit_code st' = Some code ->
        count (is_slot_released t) (log st') = 1 /\
        permit_holders st' = 0 /\ global_semaphore st' = 3)) as Hlater.
  { intros n st' t w Hsteps Hw Hp.
    by apply (permit_released_at_exit cfg n st st' t w). }
  destruct (invariant_semaphore _ _ Hinv) as [Hnn Hsum].
  pose proof (invariant_thread_log _ _ Hinv) as Hlog.
  pose proof (count_bounds (slot_at holds_permit) (threads st)) as [Hge _].
  unfold concurrent_limit, permit_holders in *.
  split_and!; try done; try lia.
  - intros t w Hw. destruct (Hlog t) as (Hgot & Hrel & _).
    unfold slot_of in *. rewrite Hw in *. simpl in *.
    rewrite Hgot, Hrel. by destruct (wpc w).
  - intros t w rnd Hw Hpc. eexists. split_and!.
    + unfold step_fn, book_ticket_step. rewrite Hw, Hpc. done.
    + done.
    + done.
  - intros t w Hw Hpc. destruct (Hlog t) as (Hgot & Hrel & Hout).
    unfold slot_of in *. rewrite Hw in *. simpl in *. rewrite Hpc in *. done.
Qed.

(** C7. One show with one ticket and five users: from every state that a
    run reaches, the run goes on to the end of [main], whatever the
    interleaving; and when [main] has returned and all five users were
    created, one attempt came out booked, four came out sold out, and the
    show has no ticket left. *)
Theorem C7_one_ticket_five_users (st : state) :
  reachable one_show_config st ->
  runs_to_exit one_show_config st /\
  forall code, exit_code st = Some code -> created_users st = 5 ->
    booked_outcomes st = 1 /\ sold_out_outcomes st = 4 /\
    (exists sh, shows st = [sh] /\ available_tickets sh = 0) /\ code = 0.
Proof.
  intros Hreach.
  assert (valid_config one_show_config) as Hcfg by (unfold valid_config, INT_MAX; simpl; lia).
  pose proof (reachable_invariant _ Hcfg st Hreach) as Hinv.
  split; [by apply invariant_runs_to_exit|].
  intros code Hexit Hspawned.
  destruct (exit_all_finished _ st code Hinv Hexit) as [-> Hfin].
  destruct (invariant_shape _ _ Hinv) as (Hlen & _ & Hsel).
  destruct (shows st) as [|sh [|? ?]] eqn:Hshows; try done.
  assert (shows st !! 0%nat = Some sh) as Hsh by (by rewrite Hshows).
  assert (selected_by 0 st = 5) as Hall.
  { rewrite <- Hspawned. unfold selected_by, created_users.
    apply count_ext_in. intros j [w|] Hj; [|done]. simpl.
    rewrite (Hfin j w Hj). specialize (Hsel j w Hj). simpl in Hsel.
    by replace (selected_show_index w) with 0%nat by lia. }
  destruct (booked_on_at_exit _ st 0 0%nat sh Hinv Hexit Hsh) as (Hb & _ & Ha).
  rewrite Hall in *. simpl in *.
  pose proof (booked_outcomes_at_exit _ st 0 Hinv Hexit) as Htotal.
  simpl in Htotal. rewrite Hall in Htotal.
  destruct (invariant_outcomes _ _ Hinv) as [Hout _].
  assert (count (slot_at has_outcome) (threads st) = 5) as Hdone.
  { rewrite <- Hspawned. unfold created_users.
    apply count_ext_in. intros j [w|] Hj; [|done]. simpl. by rewrite (Hfin j w Hj). }
  split_and!; [lia|lia| |done]. exists sh. split; [done|lia].
Qed.

(** C4, as the program has it. Three shows with two tickets each and a
    hundred users: from every state that a run reaches, the run goes on to
    the end of [main], whatever the interleaving; and when [main] has
    returned, the attempts that came out booked are, show by show, two or
    the number of users that selected the show if that is less. So there are
    at most six of them, and six exactly when every show was selected by
    two users or more. *)
Theorem C4_booked_total_follows_the_selections (st : state) :
  reachable three_shows_config st ->
  runs_to_exit three_shows_config st /\
  forall code, exit_code st = Some code ->
    booked_outcomes st
      = Z.min 2 (selected_by 0 st) + Z.min 2 (selected_by 1 st)
        + Z.min 2 (selected_by 2 st) /\
    booked_outcomes st <= 6 /\
    (booked_outcomes st = 6 <->
       2 <= selected_by 0 st /\ 2 <= selected_by 1 st /\ 2 <= selected_by 2 st).
Proof.
  intros Hreach.
  assert (valid_config three_shows_config) as Hcfg
    by (unfold valid_config, INT_MAX; simpl; lia).
  pose proof (reachable_invariant _ Hcfg st Hreach) as Hinv.
  split; [by apply invariant_runs_to_exit|].
  intros code Hexit.
  pose proof (booked_outcomes_at_exit _ st code Hinv Hexit) as Htotal.
  simpl in Htotal. lia.
Qed.

(** ** The claims on the start-up and the end of [main] *)

(** C8. With four arguments, positive values and a semaphore that could be
    initialised: if the allocation of [shows] fails, the process exits with
    code 1 at once; if the initialisation of the mutex of [shows[i]] is the
    first to fail, the mutexes of [shows[0 .. i-1]], which had been
    initialised, are destroyed in that order, [shows] is freed, and only
    then the process exits with code 1. Either way [main] does not get to
    the creation loop: nothing of a user thread is in the trace. *)
Theorem C8_registry_failure_is_fatal (env : environment) (argv : list string) :
  Z.of_nat (length argv) = 4 ->
  0 < total_users (parse_arguments argv) ->
  0 < total_tickets_per_show (parse_arguments argv) ->
  0 < total_shows (parse_arguments argv) ->
  sem_init_ok env = true ->
  (malloc_shows_ok env = false ->
     initialize_shows env (total_shows (parse_arguments argv))
       (total_tickets_per_show (parse_arguments argv)) = Exit 1 [] /\
     main_startup env argv = Exit 1 [EvSemInit 3]) /\
  (forall i,
     malloc_shows_ok env = true ->
     (i < Z.to_nat (total_shows (parse_arguments argv)))%nat ->
     mutex_init_ok env i = false ->
     (forall j, (j < i)%nat -> mutex_init_ok env j = true) ->
     initialize_shows env (total_shows (parse_arguments argv))
       (total_tickets_per_show (parse_arguments argv))
       = Exit 1 (map EvMutexInit (seq 0 i) ++ map EvMutexDestroy (seq 0 i) ++ [EvFreeShows]) /\
     main_startup env argv
       = Exit 1 (EvSemInit 3 :: map EvMutexInit (seq 0 i)
                   ++ map EvMutexDestroy (seq 0 i) ++ [EvFreeShows]) /\
     count is_thread_event
       (EvSemInit 3 :: map EvMutexInit (seq 0 i)
          ++ map EvMutexDestroy (seq 0 i) ++ [EvFreeShows]) = 0).
Proof.
  intros Hargc Hu Ht Hs Hsem.
  assert (forall code tr,
    initialize_shows env (total_shows (parse_arguments argv))
      (total_tickets_per_show (parse_arguments argv)) = Exit code tr ->
    main_startup env argv = Exit code (EvSemInit 3 :: tr)) as Hmain.
  { intros code tr Hinit. unfold main_startup.
    rewrite Hargc, Z.eqb_refl. cbn [negb]. cbv zeta.
    apply Z.leb_gt in Hu, Ht, Hs. rewrite Hu, Ht, Hs, Hsem. cbn [negb orb].
    by rewrite Hinit. }
  split.
  - intros Hmalloc.
    assert (initialize_shows env (total_shows (parse_arguments argv))
              (total_tickets_per_show (parse_arguments argv)) = Exit 1 []) as Hinit
      by (by rewrite initialize_shows_spec, Hmalloc).
    split; [done|]. by apply Hmain.
  - intros i Hmalloc Hi Hfail Hok.
    assert (initialize_shows env (total_shows (parse_arguments argv))
              (total_tickets_per_show (parse_arguments argv))
            = Exit 1 (map EvMutexInit (seq 0 i) ++ map EvMutexDestroy (seq 0 i)
                        ++ [EvFreeShows])) as Hinit.
    { rewrite initialize_shows_spec, Hmalloc.
      rewrite (first_mutex_failure_found env 0 _ i); [done|lia|done|].
      intros j Hj. apply Hok. lia. }
    split_and!; [done|by apply Hmain|].
    rewrite count_cons, !count_app, !count_map_false by done. done.
Qed.

(** C9. [main] exits with code 1 when the number of arguments is not three
    ([argc] is not 4), when one of the three values read is not positive,
    and when a resource cannot be set up (the semaphore, the array of
    shows, a mutex, the array of thread handles). Otherwise it enters the
    creation loop, and from there on: when it has returned, the code is 0,
    every user thread that was created has terminated, and [pthread_join]
    has been called once for every index; as long as it has not returned
    some thread can take a step; and it does return, within a number of
    steps that is bounded by the measure. *)
Theorem C9_exit_codes (env : environment) (argv : list string) :
  (Z.of_nat (length argv) <> 4 -> main_startup env argv = Exit 1 []) /\
  (Z.of_nat (length argv) = 4 ->
   total_users (parse_arguments argv) <= 0 \/
   total_tickets_per_show (parse_arguments argv) <= 0 \/
   total_shows (parse_arguments argv) <= 0 ->
   main_startup env argv = Exit 1 []) /\
  (Z.of_nat (length argv) = 4 ->
   0 < total_users (parse_arguments argv) ->
   0 < total_tickets_per_show (parse_arguments argv) ->
   0 < total_shows (parse_arguments argv) ->
   sem_init_ok env = false \/ malloc_shows_ok env = false \/
   is_Some (first_mutex_failure env 0 (Z.to_nat (total_shows (parse_arguments argv)))) \/
   malloc_threads_ok env = false ->
   exists tr, main_startup env argv = Exit 1 tr) /\
  (Z.of_nat (length argv) = 4 ->
   0 < total_users (parse_arguments argv) ->
   0 < total_tickets_per_show (parse_arguments argv) ->
   0 < total_shows (parse_arguments argv) ->
   sem_init_ok env = true -> malloc_shows_ok env = true ->
   first_mutex_failure env 0 (Z.to_nat (total_shows (parse_arguments argv))) = None ->
   malloc_threads_ok env = true ->
   exists tr,
     main_startup env argv
       = Continue (parse_arguments argv, init_state (parse_arguments argv)) tr /\
     forall st, reachable (parse_arguments argv) st ->
       (forall code, exit_code st = Some code ->
          code = 0 /\
          (forall j w, threads st !! j = Some (Some w) -> wpc w = Finished) /\
          (forall j, Z.of_nat j < total_users (parse_arguments argv) ->
             count (is_join_of j) (log st) = 1)) /\
       runs_to_exit (parse_arguments argv) st).
Proof.
  split_and!.
  - intros Hargc. unfold main_startup.
    destruct (Z.eqb_spec (Z.of_nat (length argv)) 4); done.
  - intros Hargc Hbad. unfold main_startup.
    rewrite Hargc, Z.eqb_refl. cbn [negb]. cbv zeta.
    destruct (Z.leb_spec (total_users (parse_arguments argv)) 0); [done|].
    destruct (Z.leb_spec (total_tickets_per_show (parse_arguments argv)) 0); [done|].
    destruct (Z.leb_spec (total_shows (parse_arguments argv)) 0); [done|]. lia.
  - intros Hargc Hu Ht Hs Hfail. unfold main_startup.
    rewrite Hargc, Z.eqb_refl. cbn [negb]. cbv zeta.
    apply Z.leb_gt in Hu, Ht, Hs. rewrite Hu, Ht, Hs. cbn [negb orb].
    destruct (sem_init_ok env); cbn [negb]; [|by eauto].
    rewrite initialize_shows_spec.
    destruct (malloc_shows_ok env); [|by eauto].
    destruct (first_mutex_failure env 0 _) as [f|]; [by eauto|].
    destruct (malloc_threads_ok env); [|by eauto].
    destruct Hfail as [?|[?|[[? ?]|?]]]; done.
  - intros Hargc Hu Ht Hs Hsem Hmalloc Hmutex Hthreads.
    eexists. split; [by apply main_startup_continues|].
    pose proof (parse_arguments_valid argv Hu Ht Hs) as Hcfg.
    intros st Hreach.
    pose proof (reachable_invariant _ Hcfg st Hreach) as Hinv.
    split; [|by apply invariant_runs_to_exit].
    intros code Hexit.
    destruct (exit_all_finished _ st code Hinv Hexit) as [-> Hfin].
    split_and!; [done|done|].
    intros j Hj. pose proof (invariant_joined _ _ Hinv) as Hjoin.
    unfold inv_joined, exit_code in *. destruct (mpc st); try done.
    rewrite Hjoin. apply Z.ltb_lt in Hj. by rewrite Hj.
Qed.

(** C10. The arguments are validated by the value that [atoi] gives them,
    not by their syntax. With four arguments: (i) if [atoi] gives one of
    the three a value that is not positive, [main] exits with code 1;
    (ii) a string in which no digit follows the white space and sign that
    [atoi] skips has the value 0, and so has a string without any digit;
    (iii) a string that starts with the digits of a positive number that
    fits an [int] and goes on with something that is not a digit has that
    number as its value; (iv) three arguments with positive values pass the
    validation: if no resource fails, [main] enters the creation loop with
    these values as its configuration. *)
Theorem C10_validation_by_atoi_value (env : environment) (argv : list string) :
  Z.of_nat (length argv) = 4 ->
  (atoi (nth 1 argv EmptyString) <= 0 \/ atoi (nth 2 argv EmptyString) <= 0 \/
   atoi (nth 3 argv EmptyString) <= 0 ->
   main_startup env argv = Exit 1 []) /\
  (forall s, starts_with_digit (after_sign s) = false -> atoi s = 0) /\
  (forall s, no_digit s = true -> atoi s = 0) /\
  (forall ds rest,
     ds <> EmptyString -> all_digits ds = true -> starts_with_digit rest = false ->
     0 < decimal_value ds <= INT_MAX ->
     atoi (String.append ds rest) = decimal_value ds) /\
  (0 < atoi (nth 1 argv EmptyString) -> 0 < atoi (nth 2 argv EmptyString) ->
   0 < atoi (nth 3 argv EmptyString) ->
   sem_init_ok env = true -> malloc_shows_ok env = true ->
   (forall i, mutex_init_ok env i = true) -> malloc_threads_ok env = true ->
   exists tr,
     main_startup env argv
       = Continue (mkConfig (atoi (nth 1 argv EmptyString)) (atoi (nth 2 argv EmptyString))
                     (atoi (nth 3 argv EmptyString)),
                   init_state (parse_arguments argv)) tr).
Proof.
  intros Hargc. split_and!.
  - intros Hbad. unfold main_startup.
    rewrite Hargc, Z.eqb_refl. cbn [negb]. cbv zeta. unfold parse_arguments. simpl.
    destruct (Z.leb_spec (atoi (nth 1 argv EmptyString)) 0); [done|].
    destruct (Z.leb_spec (atoi (nth 2 argv EmptyString)) 0); [done|].
    destruct (Z.leb_spec (atoi (nth 3 argv EmptyString)) 0); [done|]. lia.
  - apply atoi_after_sign_no_digit.
  - intros s Hs. apply atoi_after_sign_no_digit, no_digit_starts, no_digit_after_sign, Hs.
  - intros ds rest Hne Hds Hrest Hval. apply atoi_digits_then_rest; [done|done|done|lia].
  - intros Hu Ht Hs Hsem Hmalloc Hmutex Hthreads. eexists.
    by apply main_startup_continues; [..|apply first_mutex_failure_none|].
Qed.

(** C5, on the input on which the program departs from it: two users, and
    [pthread_create] fails for the first. The failure is reported when it
    happens and [threads[0]] is never written; the second user runs and
    books; but the join loop then calls [pthread_join] on [threads[0]] as
    well as on [threads[1]]. *)
Theorem C5_join_loop_visits_failed_spawn :
  exit_code failed_spawn_final = Some 0 /\
  threads failed_spawn_final
    = [None; Some (mkUserThread 2 0 Finished)] /\
  log failed_spawn_final
    = [EvSpawnError 0; EvCreated 1; EvGotSlot 1; EvBooked 1 0; EvSlotReleased 1;
       EvJoin 0 false; EvJoin 1 true; EvReport 1 0 1; EvFreeThreads;
       EvMutexDestroy 0; EvFreeShows; EvSemDestroy] /\
  error_outcomes failed_spawn_final = 1 /\
  count (is_join_of 0) (log failed_spawn_final) = 1.
Proof. by vm_compute. Qed.

(** ** The claims at work on the scenarios *)

Lemma C1_witness :
  valid_config three_shows_config /\
  reachable three_shows_config (run_sequential three_shows_config Z.of_nat) /\
  shows (run_sequential three_shows_config Z.of_nat) !! 0%nat = Some (mkShow 1 0 2 None) /\
  (0 <= available_tickets (mkShow 1 0 2 None) <= initial_tickets (mkShow 1 0 2 None) /\
   initial_tickets (mkShow 1 0 2 None) = total_tickets_per_show three_shows_config).
Proof.
  assert (valid_config three_shows_config) as Hcfg
    by (unfold valid_config, INT_MAX; simpl; lia).
  assert (reachable three_shows_config (run_sequential three_shows_config Z.of_nat))
    as Hreach by (apply execute_reachable; constructor).
  assert (shows (run_sequential three_shows_config Z.of_nat) !! 0%nat
          = Some (mkShow 1 0 2 None)) as Hsh by (vm_compute; reflexivity).
  split; [exact Hcfg|]. split; [exact Hreach|]. split; [exact Hsh|].
  exact (C1_available_between_zero_and_capacity _ _ _ _ Hcfg Hreach Hsh).
Defined.

Lemma C2_witness :
  valid_config one_show_config /\
  reachable one_show_config one_show_contended /\
  exists st1 st2,
    step_fn one_show_config (ActWorker 0 0) one_show_contended = Some st1 /\
    step_fn one_show_config (ActWorker 0 0) st1 = Some st2 /\
    shows st1 = shows one_show_contended /\
    shows st2 = <[0%nat := set_available (mkShow 1 1 1 (Some 0%nat)) (1 - 1)]>
                  (shows one_show_contended) /\
    global_semaphore st2 = global_semaphore one_show_contended /\
    log st2 = log one_show_contended ++ [EvBooked 0 0] /\
    (exists sh2, shows st2 !! 0%nat = Some sh2 /\
       available_tickets sh2 = 1 - 1 /\
       initial_tickets sh2 = 1 /\ show_id sh2 = 1 /\ mutex sh2 = Some 0%nat) /\
    (forall k', k' <> 0%nat -> shows st2 !! k' = shows one_show_contended !! k').
Proof.
  assert (valid_config one_show_config) as Hcfg
    by (unfold valid_config, INT_MAX; simpl; lia).
  assert (reachable one_show_config one_show_contended) as Hreach
    by (apply execute_reachable; constructor).
  split; [exact Hcfg|]. split; [exact Hreach|].
  destruct (C2_critical_section _ _ Hcfg Hreach) as (Hbook & _).
  refine (Hbook 0%nat (mkUserThread 1 0 AtCheck) (mkShow 1 1 1 (Some 0%nat)) 0 0 _ _ _ _).
  - vm_compute. reflexivity.
  - reflexivity.
  - vm_compute. reflexivity.
  - simpl. lia.
Defined.

Lemma C3_witness :
  valid_config three_shows_config /\
  reachable three_shows_config (run_sequential three_shows_config Z.of_nat) /\
  tickets_sold (shows (run_sequential three_shows_config Z.of_nat))
    = booked_outcomes (run_sequential three_shows_config Z.of_nat) /\
  reported_booked (log (run_sequential three_shows_config Z.of_nat))
    = Some (booked_outcomes (run_sequential three_shows_config Z.of_nat)).
Proof.
  assert (valid_config three_shows_config) as Hcfg
    by (unfold valid_config, INT_MAX; simpl; lia).
  assert (reachable three_shows_config (run_sequential three_shows_config Z.of_nat))
    as Hreach by (apply execute_reachable; constructor).
  split; [exact Hcfg|]. split; [exact Hreach|].
  destruct (C3_tickets_sold_are_the_bookings _ _ Hcfg Hreach) as (Hsold & _ & _ & Hrep).
  split; [exact Hsold|]. apply (Hrep 0). vm_compute. reflexivity.
Defined.

Lemma C6_witness :
  valid_config one_show_config /\
  reachable one_show_config one_show_contended /\
  permit_holders one_show_contended = 3 /\
  0 <= permit_holders one_show_contended <= 3 /\
  global_semaphore one_show_contended = 3 - permit_holders one_show_contended.
Proof.
  assert (valid_config one_show_config) as Hcfg
    by (unfold valid_config, INT_MAX; simpl; lia).
  assert (reachable one_show_config one_show_contended) as Hreach
    by (apply execute_reachable; constructor).
  split; [exact Hcfg|]. split; [exact Hreach|].
  destruct (C6_admission_limit _ _ Hcfg Hreach) as (_ & Hle & Hsem & _).
  split; [vm_compute; reflexivity|]. split; [exact Hle|exact Hsem].
Defined.

Lemma C7_witness :
  reachable one_show_config (run_sequential one_show_config (fun _ => 0)) /\
  exit_code (run_sequential one_show_config (fun _ => 0)) = Some 0 /\
  created_users (run_sequential one_show_config (fun _ => 0)) = 5 /\
  (booked_outcomes (run_sequential one_show_config (fun _ => 0)) = 1 /\
   sold_out_outcomes (run_sequential one_show_config (fun _ => 0)) = 4 /\
   (exists sh, shows (run_sequential one_show_config (fun _ => 0)) = [sh] /\
               available_tickets sh = 0) /\
   0 = 0).
Proof.
  assert (reachable one_show_config (run_sequential one_show_config (fun _ => 0)))
    as Hreach by (apply execute_reachable; constructor).
  assert (exit_code (run_sequential one_show_config (fun _ => 0)) = Some 0) as Hexit
    by (vm_compute; reflexivity).
  assert (created_users (run_sequential one_show_config (fun _ => 0)) = 5) as Hspawned
    by (vm_compute; reflexivity).
  split; [exact Hreach|]. split; [exact Hexit|]. split; [exact Hspawned|].
  exact (proj2 (C7_one_ticket_five_users _ Hreach) 0 Hexit Hspawned).
Defined.

(** C4 as it is stated fails: if all hundred users draw the first show, two
    attempts come out booked, not six. *)
Lemma C4_counterexample :
  ~ (forall st code,
       reachable three_shows_config st -> exit_code st = Some code ->
       created_users st = 100 -> booked_outcomes st = 6).
Proof.
  intros Hclaim.
  specialize (Hclaim (run_sequential three_shows_config (fun _ => 0)) 0).
  assert (booked_outcomes (run_sequential three_shows_config (fun _ => 0)) = 2) as Htwo
    by (vm_compute; reflexivity).
  rewrite Htwo in Hclaim.
  assert (2 = 6) as Habsurd; [|lia].
  apply Hclaim.
  - apply execute_reachable. constructor.
  - vm_compute. reflexivity.
  - vm_compute. reflexivity.
Qed.

Lemma C4_witness :
  reachable three_shows_config (run_sequential three_shows_config (fun _ => 0)) /\
  exit_code (run_sequential three_shows_config (fun _ => 0)) = Some 0 /\
  booked_outcomes (run_sequential three_shows_config (fun _ => 0))
    = Z.min 2 (selected_by 0 (run_sequential three_shows_config (fun _ => 0)))
      + Z.min 2 (selected_by 1 (run_sequential three_shows_config (fun _ => 0)))
      + Z.min 2 (selected_by 2 (run_sequential three_shows_config (fun _ => 0))).
Proof.
  assert (reachable three_shows_config (run_sequential three_shows_config (fun _ => 0)))
    as Hreach by (apply execute_reachable; constructor).
  assert (exit_code (run_sequential three_shows_config (fun _ => 0)) = Some 0) as Hexit
    by (vm_compute; reflexivity).
  split; [exact Hreach|]. split; [exact Hexit|].
  exact (proj1 (proj2 (C4_booked_total_follows_the_selections _ Hreach) 0 Hexit)).
Defined.

Lemma C8_witness :
  Z.of_nat (length four_shows_argv) = 4 /\
  0 < total_users (parse_arguments four_shows_argv) /\
  0 < total_tickets_per_show (parse_arguments four_shows_argv) /\
  0 < total_shows (parse_arguments four_shows_argv) /\
  sem_init_ok third_mutex_fails_env = true /\
  main_startup third_mutex_fails_env four_shows_argv
    = Exit 1 [EvSemInit 3; EvMutexInit 0; EvMutexInit 1;
              EvMutexDestroy 0; EvMutexDestroy 1; EvFreeShows].
Proof.
  assert (Z.of_nat (length four_shows_argv) = 4) as Hargc by reflexivity.
  assert (0 < total_users (parse_arguments four_shows_argv)) as Hu
    by (vm_compute; reflexivity).
  assert (0 < total_tickets_per_show (parse_arguments four_shows_argv)) as Ht
    by (vm_compute; reflexivity).
  assert (0 < total_shows (parse_arguments four_shows_argv)) as Hs
    by (vm_compute; reflexivity).
  assert (sem_init_ok third_mutex_fails_env = true) as Hsem by reflexivity.
  split; [exact Hargc|]. split; [exact Hu|]. split; [exact Ht|]. split; [exact Hs|].
  split; [exact Hsem|].
  destruct (C8_registry_failure_is_fatal _ _ Hargc Hu Ht Hs Hsem) as [_ Hmutex].
  refine (proj1 (proj2 (Hmutex 2%nat _ _ _ _))).
  - reflexivity.
  - vm_compute. lia.
  - reflexivity.
  - intros [|[|j]] Hj; [reflexivity|reflexivity|lia].
Defined.

Lemma C9_witness :
  main_startup friendly_env ["movie_booking"%string] = Exit 1 [] /\
  exists tr,
    main_startup friendly_env one_show_argv
      = Continue (parse_arguments one_show_argv, init_state (parse_arguments one_show_argv)) tr.
Proof.
  split.
  - apply (proj1 (C9_exit_codes friendly_env ["movie_booking"%string])).
    simpl. lia.
  - destruct (C9_exit_codes friendly_env one_show_argv) as (_ & _ & _ & Hruns).
    destruct Hruns as (tr & Hstart & _).
    + reflexivity.
    + vm_compute. reflexivity.
    + vm_compute. reflexivity.
    + vm_compute. reflexivity.
    + reflexivity.
    + reflexivity.
    + vm_compute. reflexivity.
    + reflexivity.
    + exists tr. exact Hstart.
Defined.

Lemma C10_witness :
  Z.of_nat (length trailing_text_argv) = 4 /\
  atoi (String.append "5" "x") = 5 /\
  atoi "abc" = 0 /\
  exists tr,
    main_startup friendly_env trailing_text_argv
      = Continue (mkConfig 5 1 1, init_state (parse_arguments trailing_text_argv)) tr.
Proof.
  assert (Z.of_nat (length trailing_text_argv) = 4) as Hargc by reflexivity.
  split; [exact Hargc|].
  destruct (C10_validation_by_atoi_value friendly_env _ Hargc)
    as (_ & _ & Hnone & Hprefix & Haccept).
  split; [|split].
  - apply (Hprefix "5"%string "x"%string).
    + discriminate.
    + reflexivity.
    + reflexivity.
    + vm_compute. split; [reflexivity|discriminate].
  - apply (Hnone "abc"%string). reflexivity.
  - apply Haccept.
    + vm_compute. reflexivity.
    + vm_compute. reflexivity.
    + vm_compute. reflexivity.
    + reflexivity.
    + reflexivity.
    + intros i. reflexivity.
    + reflexivity.
Defined.

(** ** Further properties of the program *)

Lemma count_mono {A : Type} (P Q : A -> bool) (l : list A) :
  (forall x, P x = true -> Q x = true) -> count P l <= count Q l.
Proof.
  intros HPQ. induction l as [|x l IH]; [done|]. rewrite !count_cons.
  specialize (HPQ x). destruct (P x), (Q x); simpl; lia.
Qed.

Lemma count_destroy_seq (k b m : nat) :
  count (is_destroy_of k) (map EvMutexDestroy (seq b m))
    = b2z ((b <=? k)%nat && (k <? b + m)%nat).
Proof.
  revert b. induction m as [|m IH]; intros b; cbn [seq map].
  - rewrite count_nil. destruct (Nat.leb_spec b k), (Nat.ltb_spec k (b + 0)); simpl; lia.
  - rewrite count_cons, IH. cbn [is_destroy_of].
    destruct (Nat.eqb_spec b k), (Nat.leb_spec (S b) k), (Nat.ltb_spec k (S b + m)),
      (Nat.leb_spec b k), (Nat.ltb_spec k (b + S m)); simpl; lia.
Qed.

Lemma count_cleanup_destroy (k : nat) (n : Z) :
  count (is_destroy_of k) (cleanup_resources n) = b2z (Z.of_nat k <? n).
Proof.
  unfold cleanup_resources. rewrite count_app, count_destroy_seq, !count_cons, count_nil.
  simpl. destruct (Nat.ltb_spec k (Z.to_nat n)), (Z.ltb_spec (Z.of_nat k) n); simpl; lia.
Qed.

Lemma count_cleanup_other (P : event -> bool) (n : Z) :
  (forall i, P (EvMutexDestroy i) = false) ->
  count P (cleanup_resources n) = b2z (P EvFreeShows) + b2z (P EvSemDestroy).
Proof.
  intros HP. unfold cleanup_resources.
  rewrite count_app, count_map_false, !count_cons, count_nil by done. lia.
Qed.

Section MoreInvariants.

Variable cfg : config.
Hypothesis cfg_ok : valid_config cfg.

Lemma inv_ids_init : inv_ids (init_state cfg).
Proof.
  destruct cfg_ok as (_ & _ & Hs). split.
  - intros k sh Hk. simpl in Hk. pose proof (lookup_lt_Some _ _ _ Hk) as Hlt.
    rewrite length_init_shows in Hlt. apply lookup_init_shows in Hk as ->. simpl.
    apply int_wrap_id. unfold in_int, INT_MIN, INT_MAX in *. lia.
  - intros t w Hw. apply lookup_replicate in Hw as [? _]. done.
Qed.

Lemma inv_ids_step (st st' : state) (a : action) :
  inv_ids st -> step_fn cfg a st = Some st' -> inv_ids st'.
Proof.
  intros [Hshow Huser] Hstep. destruct cfg_ok as (Hu & _ & _).
  step_inv Hstep; (split; simpl; [|]); try done.
  all: try (intros k' sh' [[-> ->]|[_ Hk']]%lookup_show_insert; simpl; by eauto).
  all: intros t' w' [[-> ->]|[_ Hw']]%lookup_slot_insert; simpl; eauto.
  apply int_wrap_id.
  match goal with Hlt : (_ <? _) = true |- _ => apply Z.ltb_lt in Hlt end.
  unfold in_int, INT_MIN, INT_MAX in *. lia.
Qed.

Lemma inv_spawn_init : inv_spawn cfg (init_state cfg).
Proof.
  destruct cfg_ok as (Hu & _ & _).
  unfold inv_spawn, created_users, error_outcomes. simpl.
  rewrite !count_nil, count_replicate_false by done. lia.
Qed.

Lemma inv_spawn_step (st st' : state) (a : action) :
  inv_main cfg st -> inv_spawn cfg st -> step_fn cfg a st = Some st' -> inv_spawn cfg st'.
Proof.
  intros Hmain [Hcreated Hsum] Hstep.
  unfold inv_spawn, created_users, error_outcomes, inv_main in *.
  step_split Hstep.
  - step_cases Hstep; simpl in *.
    all: repeat match goal with
      | Hlt : (_ <? _) = true |- _ => apply Z.ltb_lt in Hlt
      | Hlt : (_ <? _) = false |- _ => apply Z.ltb_ge in Hlt
      end.
    all: count_log.
    all: rewrite ?count_cleanup_other by done; simpl.
    all: try match goal with
      | |- context [<[?i := Some ?w]> (threads _)] =>
          rewrite (count_insert _ _ _ None) by (apply Hmain; lia); simpl
      end.
    all: lia.
  - step_cases Hstep; simpl in *.
    all: count_log.
    all: match goal with
      | Hw : threads _ !! _ = Some (Some ?w) |- _ =>
          rewrite (count_slot_move _ _ _ _ _ Hw); simpl
      end.
    all: destruct (mpc st); lia.
Qed.

Lemma inv_locked_init : inv_locked (init_state cfg).
Proof.
  unfold inv_locked, locked_shows. simpl.
  rewrite count_replicate_false by done. unfold init_shows.
  generalize 0%nat as b. induction (Z.to_nat (total_shows cfg)) as [|n IH]; intros b; simpl.
  - done.
  - rewrite count_cons, IH. done.
Qed.

Lemma inv_locked_step (st st' : state) (a : action) :
  inv_main cfg st -> inv_mutex st -> inv_locked st ->
  step_fn cfg a st = Some st' -> inv_locked st'.
Proof.
  intros Hmain Hm Hl Hstep. unfold inv_locked, locked_shows, inv_main in *.
  step_inv Hstep; try done.
  all: try match goal with
    | Hw : threads _ !! _ = Some (Some ?w), Hpc : wpc ?w = AtUnlock |- _ =>
        destruct (Hm _ _ Hw) as (sh0 & Hsh0 & Hmx0 & _); [by rewrite Hpc|]; simplify_eq
    end.
  all: try match goal with
    | Hs : shows _ !! ?k = Some ?s |- context [<[?k := ?y]> (shows _)] =>
        rewrite (count_insert _ _ _ s y Hs); unfold is_locked; simpl
    end.
  all: try match goal with
    | Hw : threads _ !! _ = Some (Some ?w), Hpc : wpc ?w = _ |- _ =>
        rewrite (count_slot_move _ _ _ _ _ Hw); simpl; rewrite Hpc; simpl
    end.
  all: try match goal with
    | Hpc : mpc _ = MSpawn ?i |- context [<[?i := _]> _] =>
        rewrite (count_insert (slot_at in_critical_section) _ _ None)
          by (apply Hmain; lia); simpl
    end.
  all: repeat match goal with
    | Hx : mutex ?s = _ |- context [mutex ?s] => rewrite Hx
    end.
  all: simpl; fold is_locked; try lia.
  all: destruct (mutex _); simpl; lia.
Qed.

Lemma inv_teardown_init : inv_teardown cfg (init_state cfg).
Proof. unfold inv_teardown. simpl. rewrite !count_nil. split_and!; done. Qed.

Lemma inv_teardown_step (st st' : state) (a : action) :
  inv_teardown cfg st -> step_fn cfg a st = Some st' -> inv_teardown cfg st'.
Proof.
  intros Ht Hstep. unfold inv_teardown in *.
  step_split Hstep.
  - step_cases Hstep; simpl in *.
    all: destruct Ht as (Hd & Hf & Hs & Hth).
    all: split_and!; try intros k; try specialize (Hd k).
    all: rewrite ?count_app, ?count_cons, ?count_nil, ?count_cleanup_destroy,
           ?count_cleanup_other by done; simpl; lia.
  - step_cases Hstep; simpl in *.
    all: destruct (mpc st); destruct Ht as (Hd & Hf & Hs & Hth).
    all: split_and!; try intros k; try specialize (Hd k).
    all: rewrite ?count_app, ?count_cons, ?count_nil; simpl; lia.
Qed.

Lemma more_invariant_init : more_invariant cfg (init_state cfg).
Proof.
  split.
  - apply inv_ids_init.
  - apply inv_spawn_init.
  - apply inv_locked_init.
  - apply inv_teardown_init.
Qed.

Lemma reachable_more_invariant (st : state) :
  reachable cfg st -> more_invariant cfg st.
Proof.
  induction 1 as [|st st' a Hreach IH Hstep]; [apply more_invariant_init|].
  pose proof (reachable_invariant cfg cfg_ok st Hreach) as Hinv.
  destruct IH. split.
  - by eapply inv_ids_step.
  - eapply inv_spawn_step; [|done|done]. by destruct Hinv.
  - eapply inv_locked_step; [| |done|done]; by destruct Hinv.
  - by eapply inv_teardown_step.
Qed.

End MoreInvariants.

Lemma lookup_map_seq {A : Type} (f : nat -> A) (n k : nat) :
  (k < n)%nat -> map f (seq 0 n) !! k = Some (f k).
Proof.
  intros Hk. change (map f (seq 0 n)) with (f <$> seq 0 n).
  by rewrite list_lookup_fmap, lookup_seq_lt.
Qed.

Lemma first_mutex_failure_none_below (env : environment) (n : nat) :
  (forall i, (i < n)%nat -> mutex_init_ok env i = true) ->
  first_mutex_failure env 0 n = None.
Proof.
  intros Hok. destruct (first_mutex_failure env 0 n) as [f|] eqn:Hf; [|done].
  apply first_mutex_failure_ge in Hf as (Hr & Hfail & _).
  rewrite Hok in Hfail by lia. done.
Qed.

Lemma sumZ_const {A : Type} (f : A -> Z) (c : Z) (l : list A) :
  (forall k x, l !! k = Some x -> f x = c) -> sumZ f l = Z.of_nat (length l) * c.
Proof.
  induction l as [|x l IH]; intros Hf; simpl sumZ; [simpl; lia|].
  rewrite (Hf 0%nat x eq_refl), IH by (intros k y Hy; apply (Hf (S k) y Hy)).
  simpl length. lia.
Qed.

Lemma sumZ_nonneg_lookup {A : Type} (f : A -> Z) (l : list A) :
  (forall k x, l !! k = Some x -> 0 <= f x) -> 0 <= sumZ f l.
Proof.
  induction l as [|x l IH]; intros Hf; simpl; [lia|].
  pose proof (Hf 0%nat x eq_refl).
  assert (0 <= sumZ f l) by (apply IH; intros k y Hy; apply (Hf (S k) y Hy)). lia.
Qed.

(** [display_final_status] without wrap-around. *)
Lemma display_final_status_exact (shs : list Show) :
  (forall k sh, shs !! k = Some sh -> 0 <= available_tickets sh <= initial_tickets sh) ->
  sumZ initial_tickets shs <= INT_MAX ->
  display_final_status shs
    = (sumZ initial_tickets shs, sumZ available_tickets shs, tickets_sold shs).
Proof.
  unfold display_final_status, tickets_sold.
  assert (forall a b c,
    (forall k sh, shs !! k = Some sh -> 0 <= available_tickets sh <= initial_tickets sh) ->
    0 <= c <= a -> 0 <= b <= a -> a + sumZ initial_tickets shs <= INT_MAX ->
    fold_left
      (fun (totals : Z * Z * Z) (sh : Show) =>
         let '(total_initial, total_remaining, total_booked) := totals in
         let booked := int_sub (initial_tickets sh) (available_tickets sh) in
         (int_add total_initial (initial_tickets sh),
          int_add total_remaining (available_tickets sh),
          int_add total_booked booked)) shs (a, b, c)
    = (a + sumZ initial_tickets shs, b + sumZ available_tickets shs,
       c + sumZ (fun sh => initial_tickets sh - available_tickets sh) shs)) as Hgen.
  { induction shs as [|sh shs IH]; intros a b c Hr Hc Hb Hsum; simpl in *.
    - by rewrite !Z.add_0_r.
    - destruct (Hr 0%nat sh eq_refl) as [Ha Hi].
      assert (0 <= sumZ initial_tickets shs) as Hnn.
      { apply sumZ_nonneg_lookup. intros k y Hy. destruct (Hr (S k) y Hy). lia. }
      unfold int_add, int_sub, INT_MAX in *.
      rewrite (int_wrap_id (initial_tickets sh - available_tickets sh))
        by (unfold in_int, INT_MIN, INT_MAX; lia).
      rewrite !int_wrap_id by (unfold in_int, INT_MIN, INT_MAX; lia).
      rewrite IH; [f_equal; [f_equal|]; lia| |lia|lia|lia].
      intros k y Hy. apply (Hr (S k) y Hy). }
  intros Hr Hsum. rewrite Hgen; [done|done|lia|lia|lia].
Qed.

Lemma skip_spaces_append (ws s : string) :
  all_spaces ws = true -> skip_spaces (String.append ws s) = skip_spaces s.
Proof.
  induction ws as [|c ws IH]; simpl; [done|].
  intros [Hc Hws]%andb_true_iff. rewrite Hc. by apply IH.
Qed.

Lemma skip_spaces_no_space (c : ascii) (s : string) :
  isspace c = false -> skip_spaces (String c s) = String c s.
Proof. intros Hc. simpl. by rewrite Hc. Qed.

(** The validation in [main] turns down a command line with a value that
    is not positive. *)
Lemma main_startup_rejects (env : environment) (argv : list string) :
  Z.of_nat (length argv) = 4 ->
  atoi (nth 1 argv EmptyString) <= 0 \/ atoi (nth 2 argv EmptyString) <= 0 \/
  atoi (nth 3 argv EmptyString) <= 0 ->
  main_startup env argv = Exit 1 [].
Proof.
  intros Hargc Hbad. unfold main_startup.
  rewrite Hargc, Z.eqb_refl. cbn [negb]. cbv zeta. unfold parse_arguments. simpl.
  destruct (Z.leb_spec (atoi (nth 1 argv EmptyString)) 0); [done|].
  destruct (Z.leb_spec (atoi (nth 2 argv EmptyString)) 0); [done|].
  destruct (Z.leb_spec (atoi (nth 3 argv EmptyString)) 0); [done|]. lia.
Qed.

Lemma atoi_signed (negative : bool) (ws ds rest : string) :
  all_spaces ws = true -> ds <> EmptyString -> all_digits ds = true ->
  starts_with_digit rest = false -> 0 <= decimal_value ds <= INT_MAX ->
  atoi (String.append ws
          (String (if negative then "-"%char else "+"%char) (String.append ds rest)))
    = if negative then - decimal_value ds else decimal_value ds.
Proof.
  intros Hws Hne Hds Hrest Hval. unfold atoi, strtol10.
  rewrite skip_spaces_append by done.
  rewrite skip_spaces_no_space by (by destruct negative).
  unfold INT_MAX, LONG_MAX, LONG_MIN in *.
  destruct negative; simpl read_sign; cbv iota beta.
  - rewrite read_digits_append by done. rewrite Z.mul_0_l, Z.add_0_l.
    rewrite Z.max_r by lia. apply int_wrap_id. unfold in_int, INT_MIN, INT_MAX. lia.
  - rewrite read_digits_append by done. rewrite Z.mul_0_l, Z.add_0_l.
    rewrite Z.min_r by lia. apply int_wrap_id. unfold in_int, INT_MIN, INT_MAX. lia.
Qed.

Lemma atoi_after_spaces (ws s : string) :
  all_spaces ws = true -> atoi (String.append ws s) = atoi s.
Proof.
  intros Hws. unfold atoi, strtol10. rewrite skip_spaces_append by done. done.
Qed.

Lemma step_books_at_most_one (cfg : config) (st st' : state) (a : action) (k : nat) :
  step_fn cfg a st = Some st' ->
  count (is_booked_on k) (log st') <= count (is_booked_on k) (log st) + 1.
Proof.
  intros Hstep. step_inv Hstep; count_log; try lia.
  match goal with
  | |- context [Nat.eqb ?x ?y] => destruct (Nat.eqb_spec x y); simpl; lia
  end.
Qed.

Lemma steps_book_at_most_one_each (cfg : config) (n : nat) (st st' : state) (k : nat) :
  steps cfg n st st' ->
  count (is_booked_on k) (log st') <= count (is_booked_on k) (log st) + Z.of_nat n.
Proof.
  induction 1 as [st|n st st1 st' a Hstep _ IH]; [lia|].
  pose proof (step_books_at_most_one _ _ _ _ k Hstep). lia.
Qed.

(** X1. When the allocation and every [pthread_mutex_init] succeed,
    [initialize_shows] builds exactly [num_shows] shows: show [k] has the
    identifier [k + 1], all its tickets available and its mutex free; and
    one mutex was initialised per show, in the order of the indices. *)
Theorem X1_initialize_shows_builds_the_registry
    (env : environment) (num_shows tickets_per_show : Z) :
  malloc_shows_ok env = true ->
  (forall i, (i < Z.to_nat num_shows)%nat -> mutex_init_ok env i = true) ->
  num_shows <= INT_MAX ->
  exists shs,
    initialize_shows env num_shows tickets_per_show
      = Continue shs (map EvMutexInit (seq 0 (Z.to_nat num_shows))) /\
    length shs = Z.to_nat num_shows /\
    forall k, (k < Z.to_nat num_shows)%nat ->
      shs !! k = Some (mkShow (Z.of_nat k + 1) tickets_per_show tickets_per_show None).
Proof.
  intros Hmalloc Hmutex Hmax. eexists. split_and!.
  - rewrite initialize_shows_spec, Hmalloc, first_mutex_failure_none_below by done. done.
  - by rewrite length_map, length_seq.
  - intros k Hk. rewrite lookup_map_seq by done. unfold fresh_show, int_add.
    rewrite int_wrap_id; [done|]. unfold in_int, INT_MIN, INT_MAX in *. lia.
Qed.

(** X2. If everything is set up but the array of thread handles cannot be
    allocated, [main] undoes what it had set up before it exits with code
    1: every mutex is destroyed, in the order of the indices, [shows] is
    freed and the semaphore is destroyed. *)
Theorem X2_thread_array_failure_tears_down
    (env : environment) (argv : list string) :
  Z.of_nat (length argv) = 4 ->
  0 < total_users (parse_arguments argv) ->
  0 < total_tickets_per_show (parse_arguments argv) ->
  0 < total_shows (parse_arguments argv) ->
  sem_init_ok env = true -> malloc_shows_ok env = true ->
  (forall i, (i < Z.to_nat (total_shows (parse_arguments argv)))%nat ->
     mutex_init_ok env i = true) ->
  malloc_threads_ok env = false ->
  main_startup env argv
    = Exit 1 (EvSemInit 3
                :: map EvMutexInit (seq 0 (Z.to_nat (total_shows (parse_arguments argv))))
                ++ map EvMutexDestroy (seq 0 (Z.to_nat (total_shows (parse_arguments argv))))
                ++ [EvFreeShows; EvSemDestroy]).
Proof.
  intros Hargc Hu Ht Hs Hsem Hmalloc Hmutex Hthreads. unfold main_startup.
  rewrite Hargc, Z.eqb_refl. cbn [negb]. cbv zeta.
  apply Z.leb_gt in Hu, Ht, Hs. rewrite Hu, Ht, Hs, Hsem. cbn [negb orb].
  rewrite initialize_shows_spec, Hmalloc, first_mutex_failure_none_below, Hthreads by done.
  done.
Qed.

(** X3. Mutual exclusion: in no reachable state are two user threads
    between [pthread_mutex_lock] and [pthread_mutex_unlock] on the same
    show. *)
Theorem X3_mutual_exclusion
    (cfg : config) (st : state) (t1 t2 : nat) (w1 w2 : user_thread) :
  valid_config cfg -> reachable cfg st ->
  threads st !! t1 = Some (Some w1) -> threads st !! t2 = Some (Some w2) ->
  in_critical_section (wpc w1) = true -> in_critical_section (wpc w2) = true ->
  selected_show_index w1 = selected_show_index w2 ->
  t1 = t2.
Proof.
  intros Hcfg Hreach Hw1 Hw2 Hcs1 Hcs2 Hsame.
  pose proof (invariant_mutex _ _ (reachable_invariant cfg Hcfg st Hreach)) as Hm.
  destruct (Hm _ _ Hw1 Hcs1) as (sh1 & Hsh1 & Hmx1 & _).
  destruct (Hm _ _ Hw2 Hcs2) as (sh2 & Hsh2 & Hmx2 & _).
  rewrite Hsame in Hsh1. simplify_eq. congruence.
Qed.

(** X4. The mutexes that are taken are as many as the user threads inside
    their critical sections, and never more than three: every thread that
    holds a mutex holds a slot of the semaphore. *)
Theorem X4_locked_shows_bounded (cfg : config) (st : state) :
  valid_config cfg -> reachable cfg st ->
  locked_shows st = count (slot_at in_critical_section) (threads st) /\
  0 <= locked_shows st <= permit_holders st /\
  locked_shows st <= 3.
Proof.
  intros Hcfg Hreach.
  pose proof (more_locked _ _ (reachable_more_invariant cfg Hcfg st Hreach)) as Hl.
  destruct (invariant_semaphore _ _ (reachable_invariant cfg Hcfg st Hreach)) as [Hnn Hsum].
  unfold inv_locked, permit_holders, concurrent_limit in *.
  pose proof (count_bounds is_locked (shows st)) as [Hge _]. fold (locked_shows st) in Hge.
  assert (count (slot_at in_critical_section) (threads st)
          <= count (slot_at holds_permit) (threads st)) as Hle.
  { apply count_mono. intros [w|]; [|done]. simpl. by destruct (wpc w). }
  split_and!; [done|lia|lia|lia].
Qed.

(** X5. No user is turned away while a ticket is left: once a sold-out line
    was printed for a show, that show has no ticket available, in that
    state and in every later one, and as many bookings were printed for it
    as it had tickets. *)
Theorem X5_sold_out_means_no_ticket_left
    (cfg : config) (st : state) (k : nat) (sh : Show) :
  valid_config cfg -> reachable cfg st ->
  shows st !! k = Some sh -> 0 < count (is_sold_out_on k) (log st) ->
  available_tickets sh = 0 /\
  count (is_booked_on k) (log st) = total_tickets_per_show cfg.
Proof.
  intros Hcfg Hreach Hsh Hout.
  pose proof (reachable_invariant cfg Hcfg st Hreach) as Hinv.
  destruct (invariant_sales _ _ Hinv) as (_ & Hon & Hzero).
  destruct (invariant_range _ _ Hinv k sh Hsh) as [_ Hinit].
  specialize (Hon k sh Hsh). specialize (Hzero k sh Hsh Hout). split; [done|lia].
Qed.

(** X6. Whatever steps are taken from a reachable state, the array of shows
    keeps its length, every show keeps its identifier and its initial
    number of tickets, and its available tickets only go down, by one per
    step at most. *)
Theorem X6_shows_only_lose_tickets
    (cfg : config) (n : nat) (st st' : state) (k : nat) (sh : Show) :
  valid_config cfg -> reachable cfg st -> steps cfg n st st' ->
  shows st !! k = Some sh ->
  length (shows st') = length (shows st) /\
  exists sh', shows st' !! k = Some sh' /\
    show_id sh' = show_id sh /\
    initial_tickets sh' = initial_tickets sh /\
    available_tickets sh' <= available_tickets sh /\
    available_tickets sh - available_tickets sh' <= Z.of_nat n.
Proof.
  intros Hcfg Hreach Hsteps Hsh.
  pose proof (steps_reach _ _ _ _ Hreach Hsteps) as Hreach'.
  pose proof (reachable_invariant cfg Hcfg st Hreach) as Hinv.
  pose proof (reachable_invariant cfg Hcfg st' Hreach') as Hinv'.
  destruct (invariant_shape _ _ Hinv) as (Hlen & _ & _).
  destruct (invariant_shape _ _ Hinv') as (Hlen' & _ & _).
  split; [congruence|].
  destruct (lookup_lt_is_Some_2 (shows st') k) as [sh' Hsh'].
  { apply lookup_lt_Some in Hsh. lia. }
  exists sh'. split; [done|].
  destruct (more_ids _ _ (reachable_more_invariant cfg Hcfg st Hreach)) as [Hid _].
  destruct (more_ids _ _ (reachable_more_invariant cfg Hcfg st' Hreach')) as [Hid' _].
  destruct (invariant_range _ _ Hinv k sh Hsh) as [_ Hi].
  destruct (invariant_range _ _ Hinv' k sh' Hsh') as [_ Hi'].
  destruct (invariant_sales _ _ Hinv) as (_ & Hon & _).
  destruct (invariant_sales _ _ Hinv') as (_ & Hon' & _).
  specialize (Hon k sh Hsh). specialize (Hon' k sh' Hsh').
  pose proof (steps_book_at_most_one_each _ _ _ _ k Hsteps) as Hmost.
  destruct (steps_log_extends _ _ _ _ Hsteps) as [l Hl].
  rewrite Hl, count_app in *.
  pose proof (count_bounds (is_booked_on k) l) as [Hl0 _].
  rewrite (Hid k sh Hsh), (Hid' k sh' Hsh'). split_and!; lia.
Qed.

(** X7. Every user is accounted for. In every reachable state the threads
    created and the spawn errors reported are no more than [total_users],
    and the outcomes printed are no more than the threads created. When
    [main] has returned, errors and created threads add up to [total_users]
    and every created thread has printed exactly one outcome: errors,
    bookings and sold-out lines add up to [total_users]. *)
Theorem X7_every_user_accounted_for (cfg : config) (st : state) :
  valid_config cfg -> reachable cfg st ->
  count is_created (log st) = created_users st /\
  created_users st + error_outcomes st <= total_users cfg /\
  booked_outcomes st + sold_out_outcomes st <= created_users st /\
  (forall code, exit_code st = Some code ->
     created_users st + error_outcomes st = total_users cfg /\
     booked_outcomes st + sold_out_outcomes st = created_users st /\
     error_outcomes st + booked_outcomes st + sold_out_outcomes st = total_users cfg).
Proof.
  intros Hcfg Hreach.
  pose proof (reachable_invariant cfg Hcfg st Hreach) as Hinv.
  destruct (more_spawn _ _ (reachable_more_invariant cfg Hcfg st Hreach)) as [Hc Hsum].
  destruct (invariant_outcomes _ _ Hinv) as [Hout _].
  assert (count (slot_at has_outcome) (threads st) <= created_users st) as Hle.
  { apply count_mono. by intros [w|]. }
  split_and!; [done| |lia|].
  - unfold exit_code in *. destruct (mpc st); lia.
  - intros code Hexit. destruct (exit_all_finished _ st code Hinv Hexit) as [_ Hfin].
    assert (count (slot_at has_outcome) (threads st) = created_users st) as Heq.
    { apply count_ext_in. intros j [w|] Hj; [|done]. simpl. by rewrite (Hfin j w Hj). }
    unfold exit_code in *. destruct (mpc st); try done. lia.
Qed.

(** X8. Identifiers start from 1 and follow the indices: in every reachable
    state the show at index [k] has [show_id = k + 1] and the user thread
    in slot [t] has [user_id = t + 1]; so no two shows and no two threads
    share an identifier. *)
Theorem X8_identifiers_follow_indices (cfg : config) (st : state) :
  valid_config cfg -> reachable cfg st ->
  (forall k sh, shows st !! k = Some sh -> show_id sh = Z.of_nat k + 1) /\
  (forall t w, threads st !! t = Some (Some w) -> user_id w = Z.of_nat t + 1) /\
  (forall t1 t2 w1 w2,
     threads st !! t1 = Some (Some w1) -> threads st !! t2 = Some (Some w2) ->
     user_id w1 = user_id w2 -> t1 = t2).
Proof.
  intros Hcfg Hreach.
  destruct (more_ids _ _ (reachable_more_invariant cfg Hcfg st Hreach)) as [Hshow Huser].
  split_and!; [done|done|].
  intros t1 t2 w1 w2 Hw1 Hw2 Heq.
  rewrite (Huser _ _ Hw1), (Huser _ _ Hw2) in Heq. lia.
Qed.

(** X9. When the join loop is over, nothing is in use any more: every user
    thread that was created has terminated, no thread holds a slot, the
    semaphore is back at 3 and every mutex is free. So [cleanup_resources]
    destroys only mutexes that are unlocked and a semaphore on which nobody
    waits. *)
Theorem X9_quiescent_after_join_loop (cfg : config) (st : state) :
  valid_config cfg -> reachable cfg st ->
  (mpc st = MReport \/ exists code, mpc st = MExit code) ->
  (forall t w, threads st !! t = Some (Some w) -> wpc w = Finished) /\
  permit_holders st = 0 /\
  global_semaphore st = 3 /\
  (forall k sh, shows st !! k = Some sh -> mutex sh = None).
Proof.
  intros Hcfg Hreach Hpc.
  pose proof (reachable_invariant cfg Hcfg st Hreach) as Hinv.
  assert (forall t w, threads st !! t = Some (Some w) -> wpc w = Finished) as Hfin.
  { pose proof (invariant_main _ _ Hinv) as Hmain. unfold inv_main in Hmain.
    destruct Hpc as [Hpc|[code Hpc]]; rewrite Hpc in Hmain; [done|by destruct Hmain]. }
  assert (permit_holders st = 0) as Hnone.
  { apply count_zero. intros j [w|] Hj; [|done]. simpl. by rewrite (Hfin j w Hj). }
  destruct (invariant_semaphore _ _ Hinv) as [_ Hsum]. unfold concurrent_limit in Hsum.
  split_and!; [done|done|lia|].
  intros k sh Hsh. destruct (mutex sh) as [t|] eqn:Hmx; [|done].
  destruct (invariant_owner _ _ Hinv k sh t Hsh Hmx) as (w & Hw & _ & Hcs).
  by rewrite (Hfin t w Hw) in Hcs.
Qed.


(** X11. The totals of the final report. In every reachable state, if all
    the tickets together fit an [int], [display_final_status] computes
    [total_shows * total_tickets_per_show] as the initial total, the
    number of bookings as the booked total, and their difference as the
    remaining total. *)
Theorem X11_report_totals (cfg : config) (st : state) :
  valid_config cfg -> reachable cfg st ->
  total_shows cfg * total_tickets_per_show cfg <= INT_MAX ->
  display_final_status (shows st)
    = (total_shows cfg * total_tickets_per_show cfg,
       total_shows cfg * total_tickets_per_show cfg - booked_outcomes st,
       booked_outcomes st).
Proof.
  intros Hcfg Hreach Hfit.
  pose proof (reachable_invariant cfg Hcfg st Hreach) as Hinv.
  pose proof (invariant_range _ _ Hinv) as Hr.
  destruct (invariant_shape _ _ Hinv) as (Hlen & _ & _).
  destruct (invariant_sales _ _ Hinv) as (Hsold & _ & _).
  assert (sumZ initial_tickets (shows st)
          = total_shows cfg * total_tickets_per_show cfg) as Hinit.
  { rewrite (sumZ_const _ (total_tickets_per_show cfg)).
    - rewrite Hlen. destruct Hcfg as (_ & _ & ?). lia.
    - intros k sh Hsh. by destruct (Hr k sh Hsh). }
  assert (sumZ available_tickets (shows st)
          = sumZ initial_tickets (shows st) - tickets_sold (shows st)) as Hrem.
  { unfold tickets_sold. clear. induction (shows st) as [|sh l IH]; simpl; lia. }
  rewrite display_final_status_exact; [| |lia].
  - rewrite Hrem, Hinit, Hsold. done.
  - intros k sh Hsh. by destruct (Hr k sh Hsh).
Qed.

(** X12. No access outside the arrays: in every reachable state [shows]
    has [total_shows] elements and the thread array [total_users], and the
    index that a user thread has selected designates a show; so has the
    index computed from any value of [rand]. *)
Theorem X12_selected_index_in_bounds (cfg : config) (st : state) :
  valid_config cfg -> reachable cfg st ->
  length (shows st) = Z.to_nat (total_shows cfg) /\
  length (threads st) = Z.to_nat (total_users cfg) /\
  (forall t w, threads st !! t = Some (Some w) ->
     exists sh, shows st !! selected_show_index w = Some sh) /\
  (forall rnd, 0 <= rnd <= RAND_MAX ->
     exists sh, shows st !! Z.to_nat (Z.rem rnd (total_shows cfg)) = Some sh).
Proof.
  intros Hcfg Hreach.
  destruct (invariant_shape _ _ (reachable_invariant cfg Hcfg st Hreach))
    as (Hlen & Hthreads & Hsel).
  split_and!; [done|done| |].
  - intros t w Hw. apply lookup_lt_is_Some_2. specialize (Hsel t w Hw). lia.
  - intros rnd Hrnd. apply lookup_lt_is_Some_2.
    pose proof (rem_in_range cfg Hcfg rnd). lia.
Qed.

(** X13. A user thread waits only for a reason. At [sem_wait] it is blocked
    exactly when three threads hold the slots; at [pthread_mutex_lock] it
    is blocked exactly when another thread is inside the critical section
    of the same show; anywhere else before its end it can take its step. *)
Theorem X13_blocked_only_for_a_reason
    (cfg : config) (st : state) (t : nat) (w : user_thread) (rnd : Z) :
  valid_config cfg -> reachable cfg st -> threads st !! t = Some (Some w) ->
  0 <= rnd <= RAND_MAX ->
  (wpc w = AtSemWait ->
     (step_fn cfg (ActWorker t rnd) st = None <-> permit_holders st = 3)) /\
  (wpc w = AtLock ->
     (step_fn cfg (ActWorker t rnd) st = None <->
      exists t' w', t' <> t /\ threads st !! t' = Some (Some w') /\
        selected_show_index w' = selected_show_index w /\
        in_critical_section (wpc w') = true)) /\
  (wpc w <> AtSemWait -> wpc w <> AtLock -> wpc w <> Finished ->
     exists st', step_fn cfg (ActWorker t rnd) st = Some st').
Proof.
  intros Hcfg Hreach Hw Hrnd.
  pose proof (reachable_invariant cfg Hcfg st Hreach) as Hinv.
  destruct (invariant_shape _ _ Hinv) as (Hlen & _ & Hsel). specialize (Hsel t w Hw).
  destruct (lookup_lt_is_Some_2 (shows st) (selected_show_index w)) as [sh Hsh]; [lia|].
  destruct (invariant_semaphore _ _ Hinv) as [Hnn Hsum]. unfold concurrent_limit in Hsum.
  unfold step_fn, book_ticket_step. rewrite Hw. split_and!.
  - intros Hpc. rewrite Hpc. destruct (Z.ltb_spec 0 (global_semaphore st)).
    + split; [done|lia].
    + split; [lia|done].
  - intros Hpc. rewrite Hpc, Hsh. destruct (mutex sh) as [t'|] eqn:Hmx.
    + split; [|done]. intros _.
      destruct (invariant_owner _ _ Hinv _ _ _ Hsh Hmx) as (w' & Hw' & Hk & Hcs).
      exists t', w'. split_and!; try done.
      intros ->. simplify_eq. by rewrite Hpc in Hcs.
    + split; [done|]. intros (t' & w' & _ & Hw' & Hk & Hcs).
      destruct (invariant_mutex _ _ Hinv _ _ Hw' Hcs) as (sh' & Hsh' & Hmx' & _).
      rewrite Hk in Hsh'. by simplify_eq.
  - intros H1 H2 H3. destruct (wpc w); try done; rewrite ?Hsh; eauto.
    + assert ((0 <=? rnd) && (rnd <=? RAND_MAX) = true) as ->; [|eauto].
      apply andb_true_iff. split; apply Z.leb_le; lia.
    + destruct (0 <? available_tickets sh); eauto.
Qed.

(** X14. How [main] reads its arguments. White space before the number and
    a plus sign are accepted: such an argument has the value of its digits,
    as has one without a sign. With a minus sign the value is the negative
    of the digits', and a command line with such an argument is turned
    down with exit code 1 before anything is initialised. (The number is
    one that fits an [int].) *)
Theorem X14_signs_and_white_space (ws ds rest : string) :
  all_spaces ws = true -> ds <> EmptyString -> all_digits ds = true ->
  starts_with_digit rest = false -> 0 <= decimal_value ds <= INT_MAX ->
  atoi (String.append ws (String.append ds rest)) = decimal_value ds /\
  atoi (String.append ws (String "+" (String.append ds rest))) = decimal_value ds /\
  atoi (String.append ws (String "-" (String.append ds rest))) = - decimal_value ds /\
  (forall env argv,
     Z.of_nat (length argv) = 4 ->
     (exists i, (1 <= i <= 3)%nat /\
        nth i argv EmptyString
          = String.append ws (String "-" (String.append ds rest))) ->
     main_startup env argv = Exit 1 []).
Proof.
  intros Hws Hne Hds Hrest Hval.
  pose proof (atoi_signed true ws ds rest Hws Hne Hds Hrest Hval) as Hminus.
  pose proof (atoi_signed false ws ds rest Hws Hne Hds Hrest Hval) as Hplus.
  simpl in Hminus, Hplus. split_and!; [|done|done|].
  - rewrite atoi_after_spaces by done. by apply atoi_digits_then_rest.
  - intros env argv Hargc (i & Hi & Harg). apply main_startup_rejects; [done|].
    assert (atoi (nth i argv EmptyString) <= 0) as Hneg by (rewrite Harg, Hminus; lia).
    destruct i as [|[|[|[|i]]]]; try lia; auto.
Qed.

(** ** The further properties at work on the scenarios *)

Lemma X1_witness :
  malloc_shows_ok friendly_env = true /\ 3 <= INT_MAX /\
  exists shs,
    initialize_shows friendly_env 3 2
      = Continue shs (map EvMutexInit (seq 0 (Z.to_nat 3))) /\
    length shs = Z.to_nat 3 /\
    forall k, (k < Z.to_nat 3)%nat ->
      shs !! k = Some (mkShow (Z.of_nat k + 1) 2 2 None).
Proof.
  assert (3 <= INT_MAX) as Hmax by (unfold INT_MAX; lia).
  split; [reflexivity|]. split; [exact Hmax|].
  exact (X1_initialize_shows_builds_the_registry friendly_env 3 2 eq_refl
           (fun _ _ => eq_refl) Hmax).
Defined.

Lemma X2_witness :
  Z.of_nat (length four_shows_argv) = 4 /\
  malloc_threads_ok no_thread_array_env = false /\
  main_startup no_thread_array_env four_shows_argv
    = Exit 1 [EvSemInit 3; EvMutexInit 0; EvMutexInit 1; EvMutexInit 2; EvMutexInit 3;
              EvMutexDestroy 0; EvMutexDestroy 1; EvMutexDestroy 2; EvMutexDestroy 3;
              EvFreeShows; EvSemDestroy].
Proof.
  split; [reflexivity|]. split; [reflexivity|].
  refine (X2_thread_array_failure_tears_down no_thread_array_env four_shows_argv
            eq_refl _ _ _ eq_refl eq_refl (fun _ _ => eq_refl) eq_refl).
  - vm_compute. reflexivity.
  - vm_compute. reflexivity.
  - vm_compute. reflexivity.
Defined.

Lemma X3_witness :
  valid_config one_show_config /\ reachable one_show_config one_show_contended /\
  threads one_show_contended !! 0%nat = Some (Some (mkUserThread 1 0 AtCheck)) /\
  0%nat = 0%nat.
Proof.
  assert (valid_config one_show_config) as Hcfg
    by (unfold valid_config, INT_MAX; simpl; lia).
  assert (reachable one_show_config one_show_contended) as Hreach
    by (apply execute_reachable; constructor).
  assert (threads one_show_contended !! 0%nat = Some (Some (mkUserThread 1 0 AtCheck)))
    as Hw by (vm_compute; reflexivity).
  split; [exact Hcfg|]. split; [exact Hreach|]. split; [exact Hw|].
  exact (X3_mutual_exclusion _ _ 0%nat 0%nat _ _ Hcfg Hreach Hw Hw eq_refl eq_refl eq_refl).
Defined.

Lemma X4_witness :
  valid_config one_show_config /\ reachable one_show_config one_show_contended /\
  locked_shows one_show_contended = 1 /\
  locked_shows one_show_contended <= 3.
Proof.
  assert (valid_config one_show_config) as Hcfg
    by (unfold valid_config, INT_MAX; simpl; lia).
  assert (reachable one_show_config one_show_contended) as Hreach
    by (apply execute_reachable; constructor).
  split; [exact Hcfg|]. split; [exact Hreach|]. split; [vm_compute; reflexivity|].
  exact (proj2 (proj2 (X4_locked_shows_bounded _ _ Hcfg Hreach))).
Defined.

Lemma X5_witness :
  valid_config one_show_config /\
  reachable one_show_config (run_sequential one_show_config (fun _ => 0)) /\
  shows (run_sequential one_show_config (fun _ => 0)) !! 0%nat = Some (mkShow 1 0 1 None) /\
  0 < count (is_sold_out_on 0) (log (run_sequential one_show_config (fun _ => 0))) /\
  (available_tickets (mkShow 1 0 1 None) = 0 /\
   count (is_booked_on 0) (log (run_sequential one_show_config (fun _ => 0)))
     = total_tickets_per_show one_show_config).
Proof.
  assert (valid_config one_show_config) as Hcfg
    by (unfold valid_config, INT_MAX; simpl; lia).
  assert (reachable one_show_config (run_sequential one_show_config (fun _ => 0)))
    as Hreach by (apply execute_reachable; constructor).
  assert (shows (run_sequential one_show_config (fun _ => 0)) !! 0%nat
          = Some (mkShow 1 0 1 None)) as Hsh by (vm_compute; reflexivity).
  assert (0 < count (is_sold_out_on 0) (log (run_sequential one_show_config (fun _ => 0))))
    as Hout by (vm_compute; reflexivity).
  split; [exact Hcfg|]. split; [exact Hreach|]. split; [exact Hsh|]. split; [exact Hout|].
  exact (X5_sold_out_means_no_ticket_left _ _ _ _ Hcfg Hreach Hsh Hout).
Defined.

Lemma X6_witness :
  valid_config one_show_config /\ reachable one_show_config one_show_contended /\
  steps one_show_config 2 one_show_contended one_show_after_booking /\
  shows one_show_contended !! 0%nat = Some (mkShow 1 1 1 (Some 0%nat)) /\
  length (shows one_show_after_booking) = length (shows one_show_contended).
Proof.
  assert (valid_config one_show_config) as Hcfg
    by (unfold valid_config, INT_MAX; simpl; lia).
  assert (reachable one_show_config one_show_contended) as Hreach
    by (apply execute_reachable; constructor).
  assert (steps one_show_config 2 one_show_contended one_show_after_booking) as Hsteps.
  { eapply (steps_next _ _ _ _ _ (ActWorker 0 0)); [vm_compute; reflexivity|].
    eapply (steps_next _ _ _ _ _ (ActWorker 0 0)); [vm_compute; reflexivity|].
    apply steps_refl. }
  assert (shows one_show_contended !! 0%nat = Some (mkShow 1 1 1 (Some 0%nat))) as Hsh
    by (vm_compute; reflexivity).
  split; [exact Hcfg|]. split; [exact Hreach|]. split; [exact Hsteps|]. split; [exact Hsh|].
  exact (proj1 (X6_shows_only_lose_tickets _ _ _ _ _ _ Hcfg Hreach Hsteps Hsh)).
Defined.

Lemma X7_witness :
  valid_config failed_spawn_config /\
  reachable failed_spawn_config failed_spawn_final /\
  exit_code failed_spawn_final = Some 0 /\
  error_outcomes failed_spawn_final + booked_outcomes failed_spawn_final
    + sold_out_outcomes failed_spawn_final = total_users failed_spawn_config.
Proof.
  assert (valid_config failed_spawn_config) as Hcfg
    by (unfold valid_config, INT_MAX; simpl; lia).
  assert (reachable failed_spawn_config failed_spawn_final) as Hreach
    by (apply execute_reachable; constructor).
  assert (exit_code failed_spawn_final = Some 0) as Hexit by (vm_compute; reflexivity).
  split; [exact Hcfg|]. split; [exact Hreach|]. split; [exact Hexit|].
  destruct (X7_every_user_accounted_for _ _ Hcfg Hreach) as (_ & _ & _ & Hend).
  exact (proj2 (proj2 (Hend 0 Hexit))).
Defined.

Lemma X8_witness :
  valid_config three_shows_config /\
  reachable three_shows_config (run_sequential three_shows_config Z.of_nat) /\
  forall k sh, shows (run_sequential three_shows_config Z.of_nat) !! k = Some sh ->
    show_id sh = Z.of_nat k + 1.
Proof.
  assert (valid_config three_shows_config) as Hcfg
    by (unfold valid_config, INT_MAX; simpl; lia).
  assert (reachable three_shows_config (run_sequential three_shows_config Z.of_nat))
    as Hreach by (apply execute_reachable; constructor).
  split; [exact Hcfg|]. split; [exact Hreach|].
  exact (proj1 (X8_identifiers_follow_indices _ _ Hcfg Hreach)).
Defined.

Lemma X9_witness :
  valid_config three_shows_config /\
  reachable three_shows_config (run_sequential three_shows_config Z.of_nat) /\
  (mpc (run_sequential three_shows_config Z.of_nat) = MReport \/
   exists code, mpc (run_sequential three_shows_config Z.of_nat) = MExit code) /\
  global_semaphore (run_sequential three_shows_config Z.of_nat) = 3.
Proof.
  assert (valid_config three_shows_config) as Hcfg
    by (unfold valid_config, INT_MAX; simpl; lia).
  assert (reachable three_shows_config (run_sequential three_shows_config Z.of_nat))
    as Hreach by (apply execute_reachable; constructor).
  assert (mpc (run_sequential three_shows_config Z.of_nat) = MReport \/
          exists code, mpc (run_sequential three_shows_config Z.of_nat) = MExit code)
    as Hpc by (right; exists 0; vm_compute; reflexivity).
  split; [exact Hcfg|]. split; [exact Hreach|]. split; [exact Hpc|].
  exact (proj1 (proj2 (proj2 (X9_quiescent_after_join_loop _ _ Hcfg Hreach Hpc)))).
Defined.


Lemma X11_witness :
  valid_config three_shows_config /\
  reachable three_shows_config (run_sequential three_shows_config Z.of_nat) /\
  total_shows three_shows_config * total_tickets_per_show three_shows_config <= INT_MAX /\
  display_final_status (shows (run_sequential three_shows_config Z.of_nat))
    = (total_shows three_shows_config * total_tickets_per_show three_shows_config,
       total_shows three_shows_config * total_tickets_per_show three_shows_config
         - booked_outcomes (run_sequential three_shows_config Z.of_nat),
       booked_outcomes (run_sequential three_shows_config Z.of_nat)).
Proof.
  assert (valid_config three_shows_config) as Hcfg
    by (unfold valid_config, INT_MAX; simpl; lia).
  assert (reachable three_shows_config (run_sequential three_shows_config Z.of_nat))
    as Hreach by (apply execute_reachable; constructor).
  assert (total_shows three_shows_config * total_tickets_per_show three_shows_config
          <= INT_MAX) as Hfit by (unfold INT_MAX; simpl; lia).
  split; [exact Hcfg|]. split; [exact Hreach|]. split; [exact Hfit|].
  exact (X11_report_totals _ _ Hcfg Hreach Hfit).
Defined.

Lemma X12_witness :
  valid_config one_show_config /\ reachable one_show_config one_show_contended /\
  length (shows one_show_contended) = Z.to_nat (total_shows one_show_config) /\
  length (threads one_show_contended) = Z.to_nat (total_users one_show_config).
Proof.
  assert (valid_config one_show_config) as Hcfg
    by (unfold valid_config, INT_MAX; simpl; lia).
  assert (reachable one_show_config one_show_contended) as Hreach
    by (apply execute_reachable; constructor).
  split; [exact Hcfg|]. split; [exact Hreach|].
  destruct (X12_selected_index_in_bounds _ _ Hcfg Hreach) as (Hshows & Hthreads & _).
  split; [exact Hshows|exact Hthreads].
Defined.

Lemma X13_witness :
  valid_config one_show_config /\ reachable one_show_config one_show_contended /\
  threads one_show_contended !! 3%nat = Some (Some (mkUserThread 4 0 AtSemWait)) /\
  permit_holders one_show_contended = 3 /\
  step_fn one_show_config (ActWorker 3 0) one_show_contended = None.
Proof.
  assert (valid_config one_show_config) as Hcfg
    by (unfold valid_config, INT_MAX; simpl; lia).
  assert (reachable one_show_config one_show_contended) as Hreach
    by (apply execute_reachable; constructor).
  assert (threads one_show_contended !! 3%nat = Some (Some (mkUserThread 4 0 AtSemWait)))
    as Hw by (vm_compute; reflexivity).
  assert (permit_holders one_show_contended = 3) as Hfull by (vm_compute; reflexivity).
  assert (0 <= 0 <= RAND_MAX) as Hrnd by (unfold RAND_MAX; lia).
  split; [exact Hcfg|]. split; [exact Hreach|]. split; [exact Hw|]. split; [exact Hfull|].
  destruct (X13_blocked_only_for_a_reason _ _ _ _ 0 Hcfg Hreach Hw Hrnd) as (Hsem & _).
  exact (proj2 (Hsem eq_refl) Hfull).
Defined.

Lemma X14_witness :
  all_spaces " " = true /\ all_digits "5" = true /\
  0 <= decimal_value "5" <= INT_MAX /\
  atoi " -5x" = -5 /\
  main_startup friendly_env minus_five_argv = Exit 1 [].
Proof.
  assert (0 <= decimal_value "5" <= INT_MAX) as Hval
    by (vm_compute; split; discriminate).
  split; [reflexivity|]. split; [reflexivity|]. split; [exact Hval|].
  destruct (X14_signs_and_white_space " " "5" "x" eq_refl ltac:(discriminate)
              eq_refl eq_refl Hval) as (_ & _ & Hminus & Hmain).
  split; [exact Hminus|].
  apply Hmain; [reflexivity|]. exists 1%nat. split; [lia|reflexivity].
Defined.
